(** * The SQL safety gate of the NL-to-SQL explorer

    A shallow embedding of [enforce_read_only] and [extract_sql] from
    [app_streamlit_upload_db_ui.py], together with the fragment of Python's
    [re] module and of the [str] methods those two functions call.

    Python strings are modelled as lists of characters whose code points are
    below 256 (the Latin-1 block); a character is an [ascii], read as its
    code point.  On that block the tables below are the ones CPython uses:
    [\s] and [str.strip] share [Py_UNICODE_ISSPACE], [\w] is
    [Py_UNICODE_ISALNUM] or the underscore, and [re.IGNORECASE] compares
    lower-cased code points. *)

From Stdlib Require Import Ascii String NArith Bool Arith Lia List.
Import ListNotations.

(** ** Characters and strings *)

Definition pystr := list ascii.

Definition py (s : string) : pystr := list_ascii_of_string s.
Arguments py s%_string_scope.

Definition code (c : ascii) : N := N_of_ascii c.

Definition between (lo hi : N) (c : ascii) : bool :=
  (lo <=? code c)%N && (code c <=? hi)%N.

(** [Py_UNICODE_ISSPACE] on code points below 256. *)
Definition is_space (c : ascii) : bool :=
  between 9 13 c || between 28 32 c || (code c =? 133)%N || (code c =? 160)%N.

(** [\w]: alphanumeric code points below 256, and the underscore. *)
Definition is_word (c : ascii) : bool :=
  between 48 57 c || between 65 90 c || (code c =? 95)%N || between 97 122 c
  || (code c =? 170)%N || between 178 179 c || (code c =? 181)%N
  || between 185 186 c || between 188 190 c || between 192 214 c
  || between 216 246 c || between 248 255 c.

(** [_sre.unicode_tolower] on code points below 256. *)
Definition tolower (c : ascii) : ascii :=
  if between 65 90 c || between 192 214 c || between 216 222 c
  then ascii_of_N (code c + 32)
  else c.

(** Two strings that differ at most in the case of their letters. *)
Definition ci_eq (u v : pystr) : Prop := map tolower u = map tolower v.

(** ** The [str] methods used by the source *)

Module Str.

(** [s.count(c)] for a pattern [c] of one character. *)
Definition count (c : ascii) (s : pystr) : nat :=
  List.length (filter (Ascii.eqb c) s).

Fixpoint dropwhile (p : ascii -> bool) (s : pystr) : pystr :=
  match s with
  | [] => []
  | c :: t => if p c then dropwhile p t else s
  end.

Definition lstrip_by (p : ascii -> bool) (s : pystr) : pystr := dropwhile p s.

Definition rstrip_by (p : ascii -> bool) (s : pystr) : pystr :=
  rev (dropwhile p (rev s)).

(** [s.rstrip()] *)
Definition rstrip (s : pystr) : pystr := rstrip_by is_space s.

(** [s.rstrip(chars)] *)
Definition rstrip_chars (chars : pystr) (s : pystr) : pystr :=
  rstrip_by (fun c => existsb (Ascii.eqb c) chars) s.

(** [s.strip()] *)
Definition strip (s : pystr) : pystr := rstrip_by is_space (lstrip_by is_space s).

End Str.

(** ** The fragment of [re] used by the source *)

Module Re.

Record flags := Flags { IGNORECASE : bool; DOTALL : bool }.

Inductive regex : Type :=
| Eps                           (* the empty pattern *)
| Chr (c : ascii)               (* a literal character *)
| Space                         (* \s *)
| Dot                           (* . *)
| WordB                         (* \b *)
| Bol                           (* ^ *)
| Cat (r1 r2 : regex)
| Alt (r1 r2 : regex)           (* r1|r2 *)
| Star (r : regex)              (* c* for a one-character pattern c *)
| LazyStar (r : regex)          (* c*? for a one-character pattern c *)
| Group (r : regex).            (* ( r ), the capture group number 1 *)

(** A literal string. *)
Fixpoint lit (w : pystr) : regex :=
  match w with
  | [] => Eps
  | c :: t => Cat (Chr c) (lit t)
  end.

(** A position of the matcher in the subject: the characters to the left
    of it, nearest first, the characters to the right, and what group 1
    captured so far. *)
Record cursor := Cursor {
  before : pystr;
  after : pystr;
  group1 : option pystr
}.

Definition chr_eq (f : flags) (c x : ascii) : bool :=
  if IGNORECASE f then Ascii.eqb (tolower x) (tolower c) else Ascii.eqb x c.

(** Does a one-character pattern accept [x]?  Patterns that are not of
    one character accept nothing. *)
Definition accepts (f : flags) (r : regex) (x : ascii) : bool :=
  match r with
  | Chr c => chr_eq f c x
  | Space => is_space x
  | Dot => DOTALL f || negb (Ascii.eqb x "010")
  | _ => false
  end.

Definition head_is_word (s : pystr) : bool :=
  match s with
  | [] => false
  | c :: _ => is_word c
  end.

(** [\b]: exactly one of the two neighbours is a word character. *)
Definition at_boundary (b a : pystr) : bool :=
  xorb (head_is_word b) (head_is_word a).

Section Matcher.
Variable f : flags.

Definition one (p : ascii -> bool) (k : cursor -> option cursor) (c : cursor)
  : option cursor :=
  match after c with
  | x :: t => if p x then k (Cursor (x :: before c) t (group1 c)) else None
  | [] => None
  end.

(** Greedy repetition: take one more character first, come back to the
    continuation when that fails. *)
Fixpoint greedy (p : ascii -> bool) (k : cursor -> option cursor)
         (b a : pystr) (g : option pystr) : option cursor :=
  match a with
  | x :: t =>
      if p x then
        match greedy p k (x :: b) t g with
        | Some m => Some m
        | None => k (Cursor b a g)
        end
      else k (Cursor b a g)
  | [] => k (Cursor b a g)
  end.

(** Lazy repetition: try the continuation first, take one more character
    when that fails. *)
Fixpoint lazy (p : ascii -> bool) (k : cursor -> option cursor)
         (b a : pystr) (g : option pystr) : option cursor :=
  match k (Cursor b a g) with
  | Some m => Some m
  | None =>
      match a with
      | x :: t => if p x then lazy p k (x :: b) t g else None
      | [] => None
      end
  end.

(** What a group that was entered at [c] and left at [c'] has captured. *)
Definition captured (c c' : cursor) : pystr :=
  rev (firstn (List.length (before c') - List.length (before c)) (before c')).

(** The backtracking matcher, in continuation-passing style: [run r k c]
    matches [r] at [c] and hands the position it reaches to [k]; the
    first alternative whose continuation succeeds wins. *)
Fixpoint run (r : regex) (k : cursor -> option cursor) (c : cursor)
  : option cursor :=
  match r with
  | Eps => k c
  | Chr _ | Space | Dot => one (accepts f r) k c
  | WordB => if at_boundary (before c) (after c) then k c else None
  | Bol => match before c with [] => k c | _ :: _ => None end
  | Cat r1 r2 => run r1 (run r2 k) c
  | Alt r1 r2 =>
      match run r1 k c with
      | Some m => Some m
      | None => run r2 k c
      end
  | Star r1 => greedy (accepts f r1) k (before c) (after c) (group1 c)
  | LazyStar r1 => lazy (accepts f r1) k (before c) (after c) (group1 c)
  | Group r1 =>
      run r1 (fun c' => k (Cursor (before c') (after c') (Some (captured c c')))) c
  end.

(** [re.search]: the leftmost position at which the pattern matches. *)
Fixpoint search_from (r : regex) (b a : pystr) : option cursor :=
  match run r Some (Cursor b a None) with
  | Some m => Some m
  | None =>
      match a with
      | [] => None
      | x :: t => search_from r (x :: b) t
      end
  end.

(** The number of positions at which the pattern matches. *)
Fixpoint occurrences_from (r : regex) (b a : pystr) : nat :=
  (match run r Some (Cursor b a None) with Some _ => 1 | None => 0 end)
  + match a with
    | [] => 0
    | x :: t => occurrences_from r (x :: b) t
    end.

End Matcher.

(** A compiled pattern: the expression and its flags. *)
Record pattern := Pattern { expr : regex; fl : flags }.

Definition search (p : pattern) (s : pystr) : option cursor :=
  search_from (fl p) (expr p) [] s.

(** [re.match]: the pattern matches at the start of the subject. *)
Definition match_ (p : pattern) (s : pystr) : option cursor :=
  run (fl p) (expr p) Some (Cursor [] s None).

Definition occurrences (p : pattern) (s : pystr) : nat :=
  occurrences_from (fl p) (expr p) [] s.

(** A match object is true, [None] is false. *)
Definition truthy (m : option cursor) : bool :=
  match m with
  | Some _ => true
  | None => false
  end.

End Re.

Import Re.

Notation "r1 <|> r2" := (Alt r1 r2) (at level 61, right associativity).

(** ** SQL safety *)

Inductive exn : Type :=
| ValueError (msg : string)
| AttributeError.

Definition forbidden_keyword : exn :=
  ValueError "Forbidden keywords detected in SQL".
Definition multiple_statements : exn :=
  ValueError "Multiple statements detected; only SELECT allowed".
Definition not_a_select : exn :=
  ValueError "Only SELECT queries allowed".

Definition ignorecase : flags := Flags true false.

(** [\b(INSERT|UPDATE|DELETE|ALTER|DROP|TRUNCATE|VACUUM|CREATE|GRANT|REVOKE|COPY|;|\$\$)\b],
    [re.IGNORECASE] *)
Definition FORBIDDEN : pattern :=
  Pattern
    (Cat WordB
       (Cat (Group (lit (py "INSERT") <|> lit (py "UPDATE") <|> lit (py "DELETE")
                    <|> lit (py "ALTER") <|> lit (py "DROP") <|> lit (py "TRUNCATE")
                    <|> lit (py "VACUUM") <|> lit (py "CREATE") <|> lit (py "GRANT")
                    <|> lit (py "REVOKE") <|> lit (py "COPY") <|> lit (py ";")
                    <|> lit (py "$$")))
            WordB))
    ignorecase.

(** [^\s*SELECT\b], [re.IGNORECASE] *)
Definition SELECT_RE : pattern :=
  Pattern (Cat Bol (Cat (Star Space) (Cat (lit (py "SELECT")) WordB))) ignorecase.

(** [\bLIMIT\b], [re.IGNORECASE] *)
Definition LIMIT_RE : pattern :=
  Pattern (Cat WordB (Cat (lit (py "LIMIT")) WordB)) ignorecase.

Definition enforce_read_only (sql : pystr) : exn + pystr :=
  if truthy (search FORBIDDEN sql) then inl forbidden_keyword
  else if 1 <? Str.count ";" sql then inl multiple_statements
  else if negb (truthy (match_ SELECT_RE sql)) then inl not_a_select
  else if negb (truthy (search LIMIT_RE sql))
       then inr (Str.rstrip_chars (py ";") (Str.rstrip sql) ++ py " LIMIT 100")
       else inr sql.

(** [```sql\s*(.*?)```], [re.IGNORECASE | re.DOTALL] *)
Definition FENCE_RE : pattern :=
  Pattern
    (Cat (lit (py "```sql"))
       (Cat (Star Space) (Cat (Group (LazyStar Dot)) (lit (py "```")))))
    (Flags true true).

(** [m.group(1).strip() if m else text.strip()]; a group that did not take
    part in the match is [None], which has no [strip]. *)
Definition extract_sql (text : pystr) : exn + pystr :=
  match search FENCE_RE text with
  | Some m =>
      match group1 m with
      | Some g => inr (Str.strip g)
      | None => inl AttributeError
      end
  | None => inr (Str.strip text)
  end.

(** ** Cohere SQL generation *)

Definition nl : ascii := "010".
Definition dq : ascii := "034".

Definition SYSTEM_RULES : pystr :=
  [nl]
  ++ py "You are a senior data analyst that writes safe, syntactically-correct SQLite SELECT queries." ++ [nl]
  ++ py "- Use only SELECT queries." ++ [nl]
  ++ py "- Do not use multiple statements; return exactly one SQL statement." ++ [nl]
  ++ py "- Prefer correct table and column names based on the schema provided." ++ [nl]
  ++ py "- If aggregation is requested, include GROUP BY as needed." ++ [nl]
  ++ py "- Output SQL only, no prose." ++ [nl].

(** The f-string of [generate_sql_cohere]. *)
Definition prompt (question schema_text : pystr) : pystr :=
  SYSTEM_RULES ++ [nl; nl] ++ py "Schema:" ++ [nl] ++ schema_text ++ [nl; nl]
  ++ py "User question:" ++ [nl; dq; dq; dq] ++ question ++ [dq; dq; dq; nl]
  ++ py "Return only SQL.".

Section Service.

(** The generation service is outside the program: [generate p] is the text
    of the first generation that [co.generate] returns for the prompt [p]
    (model, token limit, temperature and stop sequences are constants of the
    call), or the exception the call raises. *)
Variable E : Type.
Variable generate : pystr -> E + pystr.

(** What a call can raise: an exception of the service, or one of the
    program's own. *)
Inductive failure : Type :=
| Service (e : E)
| Raised (e : exn).

Definition generate_sql_cohere (question schema_text : pystr) : failure + pystr :=
  match generate (prompt question schema_text) with
  | inl e => inl (Service e)
  | inr text =>
      match extract_sql text with
      | inl e => inl (Raised e)
      | inr sql => inr sql
      end
  end.

(** The "Generate SQL & Run" button of the third tab, from the schema text
    it has rendered from the catalog up to the statement it hands to
    [pd.read_sql]: nothing happens without a question; an exception is shown
    as an error, and then no statement is run. *)
Definition generate_and_guard (question schema_text : pystr)
  : option (failure + pystr) :=
  match question with
  | [] => None
  | _ :: _ =>
      Some match generate_sql_cohere question schema_text with
           | inl e => inl e
           | inr sql =>
               match enforce_read_only sql with
               | inl e => inl (Raised e)
               | inr safe => inr safe
               end
           end
  end.

End Service.

Arguments Service {E} e.
Arguments Raised {E} e.
Arguments generate_sql_cohere {E} generate question schema_text.
Arguments generate_and_guard {E} generate question schema_text.

(** ** The vocabulary of the specification *)

(** The eleven statement keywords of the denylist, in the order of the
    source, and the denylist with its two punctuation tokens. *)
Definition KEYWORDS : list pystr :=
  [py "INSERT"; py "UPDATE"; py "DELETE"; py "ALTER"; py "DROP"; py "TRUNCATE";
   py "VACUUM"; py "CREATE"; py "GRANT"; py "REVOKE"; py "COPY"].

Definition TOKENS : list pystr := KEYWORDS ++ [py ";"; py "$$"].

Definition ends_with_word (s : pystr) : bool := head_is_word (rev s).

(** [w] occurs in [s] as a whole word, in any case: an occurrence with no
    word character next to it on either side. *)
Definition whole_word (w s : pystr) : Prop :=
  exists pre m post,
    s = pre ++ m ++ post /\ ci_eq m w
    /\ ends_with_word pre = false /\ head_is_word post = false.

(** [w] occurs in [s] directly between two word characters. *)
Definition flanked (w s : pystr) : Prop :=
  exists pre post,
    s = pre ++ w ++ post
    /\ ends_with_word pre = true /\ head_is_word post = true.

(** [s] begins with [w]; with [ci], whatever the case of the letters. *)
Fixpoint starts_with (ci : bool) (w s : pystr) : bool :=
  match w, s with
  | [], _ => true
  | c :: w', x :: s' =>
      (if ci then Ascii.eqb (tolower x) (tolower c) else Ascii.eqb x c)
      && starts_with ci w' s'
  | _ :: _, [] => false
  end.

(** The index of the first occurrence of [w] in [s]. *)
Fixpoint find (ci : bool) (w s : pystr) : option nat :=
  if starts_with ci w s then Some 0
  else match s with
       | [] => None
       | _ :: t => option_map S (find ci w t)
       end.

(** After its leading whitespace, [s] begins with the word [w] in any case:
    the letters of [w], and no word character after them. *)
Definition begins_with_word (w s : pystr) : bool :=
  let t := Str.lstrip_by is_space s in
  starts_with true w t && negb (head_is_word (skipn (length w) t)).

(** [s] without its last character, when that character is [c]. *)
Definition without_trailing (c : ascii) (s : pystr) : pystr :=
  match rev s with
  | x :: t => if Ascii.eqb x c then rev t else s
  | [] => s
  end.

(** The interior of the first fenced SQL block of a response: the text
    between the first opening marker, in any case, and the first closing
    marker after it. *)
Definition fenced_block (text : pystr) : option pystr :=
  match find true (py "```sql") text with
  | Some i =>
      let rest := skipn (i + 6) text in
      match find false (py "```") rest with
      | Some j => Some (firstn j rest)
      | None => None
      end
  | None => None
  end.

(** The output guarantee as the specification words it: a leading SELECT, at
    most one semicolon, none of the denylisted tokens (a keyword as a whole
    word, a semicolon, a double dollar), exactly one whole-word LIMIT. *)
Definition contains (w s : pystr) : Prop := exists pre post, s = pre ++ w ++ post.

Definition output_guarantee (y : pystr) : Prop :=
  begins_with_word (py "SELECT") y = true
  /\ Str.count ";" y <= 1
  /\ (forall kw, In kw KEYWORDS -> ~ whole_word kw y)
  /\ ~ contains (py ";") y /\ ~ contains (py "$$") y
  /\ occurrences LIMIT_RE y = 1.

(** What the denylist pattern finds in [s]: a keyword as a whole word, or
    one of the two punctuation tokens directly between two word characters. *)
Definition denylisted (s : pystr) : Prop :=
  (exists kw, In kw KEYWORDS /\ whole_word kw s)
  \/ (exists t, In t [py ";"; py "$$"] /\ flanked t s).

(** [s] is whitespace, then SELECT in any case, then the end of the string or
    a character that is not a word character. *)
Definition select_shaped (s : pystr) : Prop :=
  exists u m r,
    s = u ++ m ++ r /\ forallb is_space u = true
    /\ ci_eq m (py "SELECT") /\ head_is_word r = false.

(** ** Auxiliary functions of the proofs *)

(** The literal [w] read off the front of [a]: what it matched and what is
    left. *)
Fixpoint take_lit (f : flags) (w a : pystr) : option (pystr * pystr) :=
  match w with
  | [] => Some ([], a)
  | c :: w' =>
      match a with
      | x :: t =>
          if chr_eq f c x then
            match take_lit f w' t with
            | Some (m, r) => Some (x :: m, r)
            | None => None
            end
          else None
      | [] => None
      end
  end.

(** [w\b] matches at the position with [b] to the left and [a] to the right. *)
Definition word_end (f : flags) (b a w : pystr) : bool :=
  match take_lit f w a with
  | Some (m, r) => at_boundary (rev m ++ b) r
  | None => false
  end.

(** [\b(w1|...|wn)\b] matches at that position. *)
Definition hit (f : flags) (ws : list pystr) (b a : pystr) : bool :=
  at_boundary b a && existsb (word_end f b a) ws.

Fixpoint any_pos (h : pystr -> pystr -> bool) (b a : pystr) : bool :=
  h b a || match a with
           | [] => false
           | x :: t => any_pos h (x :: b) t
           end.

Fixpoint count_pos (h : pystr -> pystr -> bool) (b a : pystr) : nat :=
  (if h b a then 1 else 0)
  + match a with
    | [] => 0
    | x :: t => count_pos h (x :: b) t
    end.

Fixpoint any_of (w : pystr) (ws : list pystr) : regex :=
  match ws with
  | [] => lit w
  | w' :: ws' => lit w <|> any_of w' ws'
  end.

(** The denylist pattern and the LIMIT pattern at one position. *)
Definition forbidden_at : pystr -> pystr -> bool := hit ignorecase TOKENS.
Definition limit_at : pystr -> pystr -> bool := hit ignorecase [py "LIMIT"].

(** The rewrite of the guard's last step. *)
Definition capped (sql : pystr) : pystr :=
  Str.rstrip_chars (py ";") (Str.rstrip sql) ++ py " LIMIT 100".

Definition fence_flags : flags := Flags true true.
Definition fence_open : pystr := py "```sql".
Definition fence_close : pystr := py "```".

(** What follows the opening marker and its whitespace: the group and the
    closing marker. *)
Definition fence_body : regex := Cat (Group (LazyStar Dot)) (lit fence_close).

(** A predicate on characters that does not look at their case. *)
Definition caseless (p : ascii -> bool) : Prop := forall x, p (tolower x) = p x.

(** ** Characters *)

Ltac each_char c :=
  destruct c as [[] [] [] [] [] [] [] []]; try reflexivity; try discriminate.

Lemma space_not_word (c : ascii) : is_space c = true -> is_word c = false.
Proof. each_char c. Qed.

Lemma caseless_word : caseless is_word.
Proof. intros c. each_char c. Qed.

Lemma caseless_space : caseless is_space.
Proof. intros c. each_char c. Qed.

Lemma caseless_semicolon : caseless (fun x => existsb (Ascii.eqb x) (py ";")).
Proof. intros c. each_char c. Qed.

Lemma lower_backtick (x : ascii) : tolower x = "`"%char -> x = "`"%char.
Proof. each_char x. Qed.

Lemma caseless_forall (p : ascii -> bool) (u v : pystr) :
  caseless p -> ci_eq u v -> forallb p u = forallb p v.
Proof.
  intros Hp. unfold ci_eq. revert v.
  induction u as [|x u IH]; intros [|y v] E; try discriminate; [reflexivity|].
  simpl in *. injection E as Ex Eu.
  rewrite (IH v Eu), <- (Hp x), <- (Hp y), Ex. reflexivity.
Qed.

Lemma ci_eq_length (u v : pystr) : ci_eq u v -> length u = length v.
Proof.
  unfold ci_eq. intros E. rewrite <- (length_map tolower u), E. apply length_map.
Qed.

(** ** Stripping and counting *)

Lemma forallb_rev (p : ascii -> bool) (s : pystr) : forallb p (rev s) = forallb p s.
Proof.
  induction s as [|c s IH]; simpl; [reflexivity|].
  rewrite forallb_app, IH. simpl. rewrite andb_true_r. apply andb_comm.
Qed.

Section Strip.
Variable p : ascii -> bool.

Lemma dropwhile_split (s : pystr) :
  exists u, s = u ++ Str.dropwhile p s /\ forallb p u = true.
Proof.
  induction s as [|c s [u [E F]]]; simpl.
  - exists []. auto.
  - destruct (p c) eqn:Pc.
    + exists (c :: u). simpl. rewrite Pc, F. split; [congruence | reflexivity].
    + exists []. auto.
Qed.

Lemma dropwhile_keep (l r : pystr) (x : ascii) :
  p x = false -> Str.dropwhile p (l ++ x :: r) = Str.dropwhile p l ++ x :: r.
Proof.
  intros Px. induction l as [|c l IH]; simpl.
  - now rewrite Px.
  - destruct (p c); [exact IH | reflexivity].
Qed.

Lemma dropwhile_all (l r : pystr) :
  forallb p l = true -> Str.dropwhile p (l ++ r) = Str.dropwhile p r.
Proof.
  induction l as [|c l IH]; simpl; [reflexivity|].
  intros H. apply andb_prop in H as [Pc Pl]. rewrite Pc. auto.
Qed.

Lemma rstrip_by_split (s : pystr) :
  exists t, s = Str.rstrip_by p s ++ t /\ forallb p t = true.
Proof.
  unfold Str.rstrip_by. destruct (dropwhile_split (rev s)) as [u [E F]].
  exists (rev u). split; [|now rewrite forallb_rev].
  rewrite <- rev_app_distr, <- E. symmetry. apply rev_involutive.
Qed.

Lemma rstrip_by_keep (u v : pystr) (x : ascii) :
  p x = false -> Str.rstrip_by p (u ++ x :: v) = u ++ x :: Str.rstrip_by p v.
Proof.
  intros Px. unfold Str.rstrip_by.
  rewrite rev_app_distr. simpl. rewrite <- app_assoc. simpl.
  rewrite (dropwhile_keep _ _ _ Px), rev_app_distr. simpl.
  rewrite rev_involutive, <- app_assoc. reflexivity.
Qed.

Lemma rstrip_by_all (s : pystr) : forallb p s = true -> Str.rstrip_by p s = [].
Proof.
  intros H. unfold Str.rstrip_by.
  rewrite <- (app_nil_r (rev s)), dropwhile_all; [reflexivity|].
  now rewrite forallb_rev.
Qed.

Lemma rstrip_by_tail (s t : pystr) :
  forallb p t = true -> Str.rstrip_by p (s ++ t) = Str.rstrip_by p s.
Proof.
  intros H. unfold Str.rstrip_by. rewrite rev_app_distr, dropwhile_all; [reflexivity|].
  now rewrite forallb_rev.
Qed.

Lemma rstrip_by_clean (s : pystr) :
  forallb (fun c => negb (p c)) s = true -> Str.rstrip_by p s = s.
Proof.
  intros H. unfold Str.rstrip_by. rewrite <- (forallb_rev (fun c => negb (p c))) in H.
  destruct (rev s) as [|c l] eqn:E; simpl in *.
  - now rewrite <- (rev_involutive s), E.
  - apply andb_prop in H as [Pc _]. apply negb_true_iff in Pc. rewrite Pc.
    now rewrite <- E, rev_involutive.
Qed.

End Strip.

Lemma count_app (c : ascii) (u v : pystr) :
  Str.count c (u ++ v) = Str.count c u + Str.count c v.
Proof. unfold Str.count. now rewrite filter_app, length_app. Qed.

Lemma count_zero (c : ascii) (s : pystr) :
  Str.count c s = 0 -> forallb (fun x => negb (Ascii.eqb x c)) s = true.
Proof.
  unfold Str.count. induction s as [|x s IH]; simpl; [reflexivity|].
  rewrite (Ascii.eqb_sym x c). destruct (Ascii.eqb c x); simpl; [discriminate | exact IH].
Qed.

Lemma existsb_same (A : Type) (p q : A -> bool) (l : list A) :
  (forall x, p x = q x) -> existsb p l = existsb q l.
Proof. intros H. induction l as [|x l IH]; simpl; [reflexivity | now rewrite H, IH]. Qed.

(** ** Literals *)

Section Literal.
Variable f : flags.

Lemma run_lit (w : pystr) (k : cursor -> option cursor) (b a : pystr) (g : option pystr) :
  run f (lit w) k (Cursor b a g) =
  match take_lit f w a with
  | Some (m, r) => k (Cursor (rev m ++ b) r g)
  | None => None
  end.
Proof.
  revert b a. induction w as [|c w IH]; intros b a; simpl; [reflexivity|].
  unfold one; simpl. destruct a as [|x t]; [reflexivity|].
  destruct (chr_eq f c x); [|reflexivity].
  rewrite IH. destruct (take_lit f w t) as [[m r]|]; [|reflexivity].
  simpl. now rewrite <- app_assoc.
Qed.

Lemma take_lit_app (w a m r : pystr) :
  take_lit f w a = Some (m, r) -> a = m ++ r /\ length m = length w.
Proof.
  revert a m r. induction w as [|c w IH]; intros a m r; simpl.
  - intros E. injection E as <- <-. auto.
  - destruct a as [|x t]; [discriminate|].
    destruct (chr_eq f c x); [|discriminate].
    destruct (take_lit f w t) as [[m' r']|] eqn:E; [|discriminate].
    intros E'. injection E' as <- <-. destruct (IH _ _ _ E) as [-> L].
    simpl. auto.
Qed.

Lemma take_lit_ext (w a m r r' : pystr) :
  take_lit f w a = Some (m, r) -> take_lit f w (m ++ r') = Some (m, r').
Proof.
  revert a m r. induction w as [|c w IH]; intros a m r; simpl.
  - intros E. injection E as <- <-. reflexivity.
  - destruct a as [|x t]; [discriminate|].
    destruct (chr_eq f c x) eqn:Cx; [|discriminate].
    destruct (take_lit f w t) as [[m' r0]|] eqn:E; [|discriminate].
    intros E'. injection E' as <- <-. simpl. rewrite Cx, (IH _ _ _ E). reflexivity.
Qed.

(** A literal cannot reach across a character that none of its own
    characters matches. *)
Lemma take_lit_cut (w v X m r : pystr) (x : ascii) :
  forallb (fun c => negb (chr_eq f c x)) w = true ->
  take_lit f w (v ++ x :: X) = Some (m, r) ->
  exists v', v = m ++ v' /\ r = v' ++ x :: X.
Proof.
  revert v m r. induction w as [|c w IH]; intros v m r; simpl.
  - intros _ E. injection E as <- <-. exists v. auto.
  - intros H. apply andb_prop in H as [Hc Hw]. apply negb_true_iff in Hc.
    destruct v as [|y v]; simpl.
    + now rewrite Hc.
    + destruct (chr_eq f c y); [|discriminate].
      destruct (take_lit f w (v ++ x :: X)) as [[m' r']|] eqn:E; [|discriminate].
      intros E'. injection E' as <- <-.
      destruct (IH _ _ _ Hw E) as [v' [-> ->]]. exists v'. auto.
Qed.

Lemma take_lit_starts (w a : pystr) :
  take_lit f w a =
  if starts_with (IGNORECASE f) w a
  then Some (firstn (length w) a, skipn (length w) a)
  else None.
Proof.
  revert a. induction w as [|c w IH]; intros a; simpl; [reflexivity|].
  destruct a as [|x t]; [reflexivity|].
  unfold chr_eq. rewrite IH.
  destruct (IGNORECASE f);
    [destruct (Ascii.eqb (tolower x) (tolower c)) | destruct (Ascii.eqb x c)];
    simpl; try reflexivity; now destruct (starts_with _ w t).
Qed.

Lemma take_lit_ci (w m r : pystr) :
  IGNORECASE f = true -> ci_eq m w -> take_lit f w (m ++ r) = Some (m, r).
Proof.
  intros Hf. unfold ci_eq. revert m.
  induction w as [|c w IH]; intros [|x m] E; try discriminate; [reflexivity|].
  simpl in *. injection E as Ex Em. unfold chr_eq.
  rewrite Hf, Ex, Ascii.eqb_refl, (IH _ Em). reflexivity.
Qed.

Lemma take_lit_ci_inv (w a m r : pystr) :
  IGNORECASE f = true -> take_lit f w a = Some (m, r) -> ci_eq m w.
Proof.
  intros Hf. unfold ci_eq. revert a m r.
  induction w as [|c w IH]; intros a m r; simpl.
  - intros E. injection E as <- <-. reflexivity.
  - destruct a as [|x t]; [discriminate|]. unfold chr_eq. rewrite Hf.
    destruct (Ascii.eqb_spec (tolower x) (tolower c)) as [Ex|]; [|discriminate].
    destruct (take_lit f w t) as [[m' r']|] eqn:E; [|discriminate].
    intros E'. injection E' as <- <-. simpl. now rewrite Ex, (IH _ _ _ E).
Qed.

(** ** Alternations of literals between word boundaries *)

Lemma run_any_of (w : pystr) (ws : list pystr) (k : cursor -> option cursor) (c : cursor) :
  truthy (run f (any_of w ws) k c)
  = existsb (fun w' => truthy (run f (lit w') k c)) (w :: ws).
Proof.
  revert w. induction ws as [|w' ws IH]; intros w.
  - simpl. now rewrite orb_false_r.
  - change (any_of w (w' :: ws)) with (lit w <|> any_of w' ws).
    change (run f (lit w <|> any_of w' ws) k c)
      with (match run f (lit w) k c with
            | Some m => Some m
            | None => run f (any_of w' ws) k c
            end).
    change (existsb _ (w :: w' :: ws))
      with (truthy (run f (lit w) k c)
            || existsb (fun w0 => truthy (run f (lit w0) k c)) (w' :: ws)).
    rewrite <- IH. now destruct (run f (lit w) k c).
Qed.

Lemma run_words_group (w : pystr) (ws : list pystr) (b a : pystr) :
  truthy (run f (Cat WordB (Cat (Group (any_of w ws)) WordB)) Some (Cursor b a None))
  = hit f (w :: ws) b a.
Proof.
  unfold hit. simpl run. simpl before. simpl after.
  destruct (at_boundary b a); [|reflexivity].
  rewrite run_any_of. rewrite andb_true_l. apply existsb_same. intros w0.
  rewrite run_lit. unfold word_end.
  destruct (take_lit f w0 a) as [[m r]|]; [|reflexivity].
  simpl. now destruct (at_boundary _ _).
Qed.

Lemma run_word (w b a : pystr) :
  truthy (run f (Cat WordB (Cat (lit w) WordB)) Some (Cursor b a None))
  = hit f [w] b a.
Proof.
  unfold hit. simpl run. simpl before. simpl after.
  destruct (at_boundary b a); [|reflexivity].
  rewrite run_lit. simpl. unfold word_end. rewrite orb_false_r.
  destruct (take_lit f w a) as [[m r]|]; [|reflexivity].
  simpl. now destruct (at_boundary _ _).
Qed.

(** ** Searching *)

Lemma search_any (r : regex) (h : pystr -> pystr -> bool) :
  (forall b a, truthy (run f r Some (Cursor b a None)) = h b a) ->
  forall a b, truthy (search_from f r b a) = any_pos h b a.
Proof.
  intros H. induction a as [|x t IH]; intros b; simpl; rewrite <- H.
  - destruct (run f r Some _); reflexivity.
  - destruct (run f r Some _); [reflexivity|]. apply IH.
Qed.

Lemma occurrences_count (r : regex) (h : pystr -> pystr -> bool) :
  (forall b a, truthy (run f r Some (Cursor b a None)) = h b a) ->
  forall a b, occurrences_from f r b a = count_pos h b a.
Proof.
  intros H. induction a as [|x t IH]; intros b; simpl; rewrite <- H.
  - destruct (run f r Some _); reflexivity.
  - rewrite IH. destruct (run f r Some _); reflexivity.
Qed.

End Literal.

(** ** Positions of a subject *)

Section Positions.
Variable h : pystr -> pystr -> bool.

Lemma any_pos_skip (p b a : pystr) :
  any_pos h (rev p ++ b) a = true -> any_pos h b (p ++ a) = true.
Proof.
  revert b. induction p as [|x p IH]; intros b; [trivial|].
  simpl rev. rewrite <- app_assoc. cbn [app any_pos]. intros H.
  rewrite (IH _ H). apply orb_true_r.
Qed.

Lemma any_pos_here (b a : pystr) : h b a = true -> any_pos h b a = true.
Proof. intros H. destruct a; simpl; now rewrite H. Qed.

Section Tails.
Variables X Y : pystr.
Hypothesis stable :
  forall b v, v <> [] -> h b (v ++ X) = true -> h b (v ++ Y) = true.

Lemma any_pos_prefix (p b : pystr) :
  any_pos h b (p ++ X) = true ->
  any_pos h b (p ++ Y) = true \/ any_pos h (rev p ++ b) X = true.
Proof.
  revert b. induction p as [|x p IH]; intros b; [now right|].
  simpl rev. rewrite <- app_assoc. cbn [app any_pos].
  intros H. apply orb_prop in H as [H|H].
  - left. apply orb_true_intro. left.
    apply (stable b (x :: p)); [discriminate | exact H].
  - destruct (IH _ H) as [H'|H']; [left | now right].
    rewrite H'. apply orb_true_r.
Qed.

Lemma count_pos_prefix (p b : pystr) :
  any_pos h b (p ++ Y) = false ->
  count_pos h b (p ++ X) = count_pos h (rev p ++ b) X.
Proof.
  revert b. induction p as [|x p IH]; intros b; [reflexivity|].
  simpl rev. rewrite <- app_assoc. cbn [app any_pos count_pos].
  intros H. apply orb_false_elim in H as [H1 H2].
  rewrite (IH _ H2). destruct (h b (x :: p ++ X)) eqn:E; [|reflexivity].
  assert (H3 : h b ((x :: p) ++ Y) = true)
    by (apply (stable b (x :: p)); [discriminate | exact E]).
  simpl in H3. congruence.
Qed.
End Tails.

End Positions.

(** A word pattern that matches in front of a separator matches as well in
    front of anything that does not begin with a word character. *)
Lemma hit_stable (f : flags) (ws : list pystr) (x : ascii) (X Y b v : pystr) :
  is_word x = false -> head_is_word Y = false ->
  forallb (fun w => forallb (fun c => negb (chr_eq f c x)) w) ws = true ->
  v <> [] ->
  hit f ws b (v ++ x :: X) = true -> hit f ws b (v ++ Y) = true.
Proof.
  intros Hx HY Hws Hv. unfold hit. intros H. apply andb_prop in H as [Hb He].
  apply andb_true_intro. split.
  - destruct v; [contradiction | exact Hb].
  - apply existsb_exists in He as [w [Hin Hw]]. apply existsb_exists.
    exists w. split; [exact Hin|]. unfold word_end in *.
    destruct (take_lit f w (v ++ x :: X)) as [[m r]|] eqn:E; [|discriminate].
    rewrite forallb_forall in Hws.
    destruct (take_lit_cut f w v X m r x (Hws _ Hin) E) as [v' [-> ->]].
    rewrite <- app_assoc, (take_lit_ext f w _ m _ (v' ++ Y) E).
    unfold at_boundary in *. destruct v'; [|exact Hw].
    simpl in *. now rewrite HY, <- Hx.
Qed.

(** ** The three patterns of the guard *)

Lemma search_FORBIDDEN (s : pystr) :
  truthy (search FORBIDDEN s) = any_pos forbidden_at [] s.
Proof.
  unfold search. apply search_any. intros b a.
  exact (run_words_group ignorecase (py "INSERT") (tl TOKENS) b a).
Qed.

Lemma search_LIMIT (s : pystr) :
  truthy (search LIMIT_RE s) = any_pos limit_at [] s.
Proof. unfold search. apply search_any. intros b a. apply run_word. Qed.

Lemma occurrences_LIMIT (s : pystr) :
  occurrences LIMIT_RE s = count_pos limit_at [] s.
Proof. unfold occurrences. apply occurrences_count. intros b a. apply run_word. Qed.

Lemma forbidden_tail (b : pystr) : any_pos forbidden_at b (py " LIMIT 100") = false.
Proof.
  change (py " LIMIT 100") with (" "%char :: py "LIMIT 100").
  cbn [any_pos]. apply orb_false_intro; [|reflexivity].
  unfold forbidden_at, hit. apply andb_false_intro2. reflexivity.
Qed.

Lemma limit_tail (b : pystr) : count_pos limit_at b (py " LIMIT 100") = 1.
Proof.
  change (py " LIMIT 100") with (" "%char :: py "LIMIT 100").
  cbn [count_pos].
  replace (limit_at b (" "%char :: py "LIMIT 100")) with false; [reflexivity|].
  symmetry. unfold limit_at, hit. apply andb_false_intro2. reflexivity.
Qed.

Lemma head_word_rev (m b : pystr) :
  m <> [] -> forallb is_word m = true -> head_is_word (rev m ++ b) = true.
Proof.
  intros Hm Hw. rewrite <- forallb_rev in Hw.
  destruct (rev m) as [|z l] eqn:E.
  - apply (f_equal (@rev ascii)) in E. rewrite rev_involutive in E. contradiction.
  - simpl in *. now apply andb_prop in Hw as [Hz _].
Qed.

(** After a word made of word characters, [\b] asks for the end of the
    subject or a character that is not a word character. *)
Lemma word_end_plain (f : flags) (w b a : pystr) :
  IGNORECASE f = true -> w <> [] -> forallb is_word w = true ->
  word_end f b a w
  = starts_with true w a && negb (head_is_word (skipn (length w) a)).
Proof.
  intros Hf Hw Hall. unfold word_end.
  destruct (take_lit f w a) as [[m r]|] eqn:E.
  - pose proof (take_lit_ci_inv f w a m r Hf E) as Hci.
    rewrite take_lit_starts, Hf in E.
    destruct (starts_with true w a); [|discriminate].
    injection E as <- <-. unfold at_boundary.
    rewrite head_word_rev; [reflexivity | |].
    + intros N. apply ci_eq_length in Hci. rewrite N in Hci.
      destruct w; [contradiction | discriminate].
    + now rewrite (caseless_forall is_word _ w caseless_word Hci).
  - rewrite take_lit_starts, Hf in E.
    now destruct (starts_with true w a).
Qed.

Lemma greedy_commit (p : ascii -> bool) (k : cursor -> option cursor) :
  (forall b x t g, p x = true -> k (Cursor b (x :: t) g) = None) ->
  forall a b g,
    exists u, a = u ++ Str.dropwhile p a /\ forallb p u = true
              /\ greedy p k b a g = k (Cursor (rev u ++ b) (Str.dropwhile p a) g).
Proof.
  intros Hk. induction a as [|x t IH]; intros b g.
  - exists []. auto.
  - simpl. destruct (p x) eqn:Px.
    + destruct (IH (x :: b) g) as [u [E [F G]]].
      exists (x :: u). simpl. rewrite Px, F, <- app_assoc, <- E. simpl.
      repeat split. rewrite G, (Hk b x t g Px).
      now destruct (k _).
    + exists []. auto.
Qed.

Lemma space_not_S (x : ascii) : is_space x = true -> chr_eq ignorecase "S" x = false.
Proof. each_char x. Qed.

Lemma match_SELECT (s : pystr) :
  truthy (match_ SELECT_RE s) = begins_with_word (py "SELECT") s.
Proof.
  unfold match_, begins_with_word, Str.lstrip_by.
  change (run (fl SELECT_RE) (expr SELECT_RE) Some (Cursor [] s None))
    with (greedy is_space (run ignorecase (Cat (lit (py "SELECT")) WordB) Some)
            [] s None).
  destruct (greedy_commit is_space
              (run ignorecase (Cat (lit (py "SELECT")) WordB) Some)) with (a := s) (b := @nil ascii) (g := @None pystr)
    as [u [_ [_ ->]]].
  - intros b x t g Px.
    change (run ignorecase (Cat (lit (py "SELECT")) WordB) Some (Cursor b (x :: t) g))
      with (run ignorecase (lit (py "SELECT")) (run ignorecase WordB Some) (Cursor b (x :: t) g)).
    rewrite run_lit. simpl. now rewrite (space_not_S x Px).
  - change (run ignorecase (Cat (lit (py "SELECT")) WordB) Some)
      with (run ignorecase (lit (py "SELECT")) (run ignorecase WordB Some)).
    rewrite run_lit.
    rewrite <- (word_end_plain ignorecase (py "SELECT") (rev u ++ []) (Str.dropwhile is_space s));
      [| reflexivity | discriminate | reflexivity].
    unfold word_end. destruct (take_lit _ _ _) as [[m r]|]; [|reflexivity].
    simpl. now destruct (at_boundary _ _).
Qed.

(** ** The guard, check by check *)

Lemma enforce_unfold (s : pystr) :
  enforce_read_only s =
  if any_pos forbidden_at [] s then inl forbidden_keyword
  else if 1 <? Str.count ";" s then inl multiple_statements
  else if negb (begins_with_word (py "SELECT") s) then inl not_a_select
  else if negb (any_pos limit_at [] s) then inr (capped s)
  else inr s.
Proof.
  unfold enforce_read_only. now rewrite search_FORBIDDEN, match_SELECT, search_LIMIT.
Qed.

Lemma enforce_inv (s y : pystr) :
  enforce_read_only s = inr y ->
  any_pos forbidden_at [] s = false /\ Str.count ";" s <= 1
  /\ begins_with_word (py "SELECT") s = true
  /\ (any_pos limit_at [] s = true /\ y = s
      \/ any_pos limit_at [] s = false /\ y = capped s).
Proof.
  rewrite enforce_unfold.
  destruct (any_pos forbidden_at [] s); [discriminate|].
  destruct (Nat.ltb_spec 1 (Str.count ";" s)); [discriminate|].
  destruct (begins_with_word (py "SELECT") s); [|discriminate].
  destruct (any_pos limit_at [] s); simpl; intros E; injection E as <-;
    repeat split; auto; lia.
Qed.

Lemma enforce_keep (s : pystr) :
  any_pos forbidden_at [] s = false -> Str.count ";" s <= 1 ->
  begins_with_word (py "SELECT") s = true -> any_pos limit_at [] s = true ->
  enforce_read_only s = inr s.
Proof.
  intros H1 H2 H3 H4. rewrite enforce_unfold, H1, H3, H4.
  destruct (Nat.ltb_spec 1 (Str.count ";" s)); [lia | reflexivity].
Qed.

Lemma count_pos_any (h : pystr -> pystr -> bool) (a b : pystr) :
  0 < count_pos h b a -> any_pos h b a = true.
Proof.
  revert b. induction a as [|x t IH]; intros b; simpl.
  - destruct (h b []); simpl; [reflexivity | lia].
  - destruct (h b (x :: t)); simpl; [reflexivity|]. apply IH.
Qed.

(** What [capped] cuts off: semicolons followed by whitespace. *)
Lemma capped_split (s : pystr) :
  exists tail,
    s = Str.rstrip_chars (py ";") (Str.rstrip s) ++ tail
    /\ head_is_word tail = false.
Proof.
  unfold Str.rstrip_chars, Str.rstrip.
  destruct (rstrip_by_split is_space s) as [t1 [E1 F1]].
  destruct (rstrip_by_split (fun c => existsb (Ascii.eqb c) (py ";"))
              (Str.rstrip_by is_space s)) as [t2 [E2 F2]].
  exists (t2 ++ t1). split.
  - rewrite app_assoc, <- E2. exact E1.
  - destruct t2 as [|c t2]; simpl in *.
    + destruct t1 as [|c t1]; [reflexivity|]. simpl in *.
      apply andb_prop in F1 as [F1 _]. now apply space_not_word.
    + apply andb_prop in F2 as [F2 _]. rewrite orb_false_r in F2.
      apply Ascii.eqb_eq in F2. now subst c.
Qed.

Lemma stable_forbidden (Y b v : pystr) :
  head_is_word Y = false -> v <> [] ->
  forbidden_at b (v ++ py " LIMIT 100") = true -> forbidden_at b (v ++ Y) = true.
Proof.
  intros HY Hv. apply (hit_stable ignorecase TOKENS " " (py "LIMIT 100")); auto.
Qed.

Lemma stable_limit (Y b v : pystr) :
  head_is_word Y = false -> v <> [] ->
  limit_at b (v ++ py " LIMIT 100") = true -> limit_at b (v ++ Y) = true.
Proof.
  intros HY Hv. apply (hit_stable ignorecase [py "LIMIT"] " " (py "LIMIT 100")); auto.
Qed.

(** ** Beginning with a word *)

Lemma begins_inv (w s : pystr) :
  begins_with_word w s = true ->
  exists u m r, s = u ++ m ++ r /\ forallb is_space u = true
                /\ ci_eq m w /\ head_is_word r = false.
Proof.
  unfold begins_with_word, Str.lstrip_by. intros H. apply andb_prop in H as [H1 H2].
  destruct (dropwhile_split is_space s) as [u [E F]].
  pose proof (take_lit_starts ignorecase w (Str.dropwhile is_space s)) as T.
  simpl IGNORECASE in T. rewrite H1 in T.
  exists u, (firstn (length w) (Str.dropwhile is_space s)),
    (skipn (length w) (Str.dropwhile is_space s)).
  rewrite firstn_skipn. repeat split; auto.
  - exact (take_lit_ci_inv ignorecase w _ _ _ eq_refl T).
  - now apply negb_true_iff.
Qed.

Lemma begins_intro (w u m r : pystr) :
  head (map is_space w) = Some false ->
  forallb is_space u = true -> ci_eq m w -> head_is_word r = false ->
  begins_with_word w (u ++ m ++ r) = true.
Proof.
  intros Hw Hu Hm Hr. unfold begins_with_word, Str.lstrip_by.
  rewrite (dropwhile_all is_space u _ Hu).
  assert (D : Str.dropwhile is_space (m ++ r) = m ++ r).
  { destruct w as [|c w]; [discriminate|]. destruct m as [|x m]; [discriminate|].
    simpl in *. injection Hw as Hc. unfold ci_eq in Hm. simpl in Hm.
    injection Hm as Hx _. now rewrite <- caseless_space, Hx, caseless_space, Hc. }
  rewrite D.
  pose proof (take_lit_ci ignorecase w m r eq_refl Hm) as T.
  rewrite take_lit_starts in T. simpl IGNORECASE in T.
  destruct (starts_with true w (m ++ r)); [|discriminate].
  injection T as _ ->. now rewrite Hr.
Qed.

Lemma rstrip_by_word (p : ascii -> bool) (u m r : pystr) :
  m <> [] -> forallb (fun c => negb (p c)) m = true ->
  Str.rstrip_by p (u ++ m ++ r) = u ++ m ++ Str.rstrip_by p r.
Proof.
  intros Hm Hp. destruct (exists_last Hm) as [m0 [z ->]].
  rewrite forallb_app in Hp. apply andb_prop in Hp as [_ Hz]. simpl in Hz.
  rewrite andb_true_r in Hz. apply negb_true_iff in Hz.
  replace (u ++ (m0 ++ [z]) ++ r) with ((u ++ m0) ++ z :: r)
    by (now rewrite <- !app_assoc).
  rewrite (rstrip_by_keep p _ _ _ Hz). now rewrite <- !app_assoc.
Qed.

Lemma caseless_not (p : ascii -> bool) : caseless p -> caseless (fun c => negb (p c)).
Proof. intros H x. now rewrite H. Qed.

(** ** The appended row cap *)

Lemma capped_forbidden (s : pystr) :
  any_pos forbidden_at [] s = false -> any_pos forbidden_at [] (capped s) = false.
Proof.
  intros H. destruct (capped_split s) as [tail [E HT]]. unfold capped.
  set (p := Str.rstrip_chars (py ";") (Str.rstrip s)) in *.
  destruct (any_pos forbidden_at [] (p ++ py " LIMIT 100")) eqn:A; [|reflexivity].
  apply (any_pos_prefix forbidden_at _ tail) in A as [A|A].
  - rewrite <- E in A. congruence.
  - now rewrite forbidden_tail in A.
  - intros b v. now apply stable_forbidden.
Qed.

Lemma capped_limit (s : pystr) :
  any_pos limit_at [] s = false -> count_pos limit_at [] (capped s) = 1.
Proof.
  intros H. destruct (capped_split s) as [tail [E HT]]. unfold capped.
  set (p := Str.rstrip_chars (py ";") (Str.rstrip s)) in *.
  rewrite (count_pos_prefix limit_at _ tail).
  - apply limit_tail.
  - intros b v. now apply stable_limit.
  - now rewrite <- E.
Qed.

Lemma capped_count (s : pystr) : Str.count ";" (capped s) <= Str.count ";" s.
Proof.
  destruct (capped_split s) as [tail [E _]]. unfold capped.
  set (p := Str.rstrip_chars (py ";") (Str.rstrip s)) in *.
  assert (C : Str.count ";" s = Str.count ";" p + Str.count ";" tail)
    by (rewrite <- count_app; now f_equal).
  rewrite C, count_app. change (Str.count ";" (py " LIMIT 100")) with 0. lia.
Qed.

Lemma capped_begins (s : pystr) :
  begins_with_word (py "SELECT") s = true ->
  begins_with_word (py "SELECT") (capped s) = true.
Proof.
  intros H. destruct (begins_inv _ _ H) as [u [m [r [-> [Hu [Hm Hr]]]]]].
  assert (Nm : m <> []).
  { intros ->. discriminate Hm. }
  unfold capped, Str.rstrip_chars, Str.rstrip.
  rewrite rstrip_by_word, rstrip_by_word; auto.
  - rewrite <- !app_assoc. apply begins_intro; auto.
    destruct (capped_split r) as [tail [E _]].
    unfold Str.rstrip_chars, Str.rstrip in E.
    destruct (Str.rstrip_by _ (Str.rstrip_by is_space r)) as [|c l]; [reflexivity|].
    rewrite E in Hr. exact Hr.
  - now rewrite (caseless_forall _ m (py "SELECT") (caseless_not _ caseless_semicolon) Hm).
  - now rewrite (caseless_forall _ m (py "SELECT") (caseless_not _ caseless_space) Hm).
Qed.

(** ** Whole words and word patterns *)

Lemma word_end_ci (f : flags) (w m b post : pystr) :
  IGNORECASE f = true -> ci_eq m w ->
  word_end f b (m ++ post) w = at_boundary (rev m ++ b) post.
Proof.
  intros Hf Hm. unfold word_end. now rewrite (take_lit_ci f w m post Hf Hm).
Qed.

Lemma ci_word (w m : pystr) :
  w <> [] -> forallb is_word w = true -> ci_eq m w ->
  m <> [] /\ forallb is_word m = true.
Proof.
  intros Hw Hall Hm. split.
  - intros ->. destruct w; [contradiction | discriminate].
  - now rewrite (caseless_forall is_word m w caseless_word Hm).
Qed.

Lemma whole_word_hit (f : flags) (ws : list pystr) (w s : pystr) :
  IGNORECASE f = true -> In w ws -> w <> [] -> forallb is_word w = true ->
  whole_word w s -> any_pos (hit f ws) [] s = true.
Proof.
  intros Hf Hin Hw Hall [pre [m [post [-> [Hm [Hpre Hpost]]]]]].
  destruct (ci_word w m Hw Hall Hm) as [Nm Wm].
  apply any_pos_skip, any_pos_here. rewrite app_nil_r. unfold hit.
  apply andb_true_intro. split.
  - unfold at_boundary. fold (ends_with_word pre). rewrite Hpre.
    destruct m as [|x m]; [contradiction|]. simpl in *.
    now apply andb_prop in Wm as [-> _].
  - apply existsb_exists. exists w. split; [exact Hin|].
    rewrite (word_end_ci f w m _ post Hf Hm). unfold at_boundary.
    now rewrite (head_word_rev m _ Nm Wm), Hpost.
Qed.

Lemma hit_whole_word (f : flags) (w : pystr) :
  IGNORECASE f = true -> w <> [] -> forallb is_word w = true ->
  forall a b,
    any_pos (hit f [w]) b a = true ->
    exists pre m post,
      a = pre ++ m ++ post /\ ci_eq m w
      /\ head_is_word (rev pre ++ b) = false /\ head_is_word post = false.
Proof.
  intros Hf Hw Hall. induction a as [|x t IH]; intros b H.
  - simpl in H. rewrite orb_false_r in H. unfold hit in H. simpl in H.
    rewrite orb_false_r in H. apply andb_prop in H as [_ H].
    unfold word_end in H. destruct w; [contradiction | discriminate].
  - cbn [any_pos] in H. apply orb_prop in H as [H|H].
    + unfold hit in H. simpl existsb in H. rewrite orb_false_r in H.
      apply andb_prop in H as [Hb He]. unfold word_end in He.
      destruct (take_lit f w (x :: t)) as [[m r]|] eqn:E; [|discriminate].
      pose proof (take_lit_ci_inv f w _ m r Hf E) as Hm.
      destruct (take_lit_app f w _ m r E) as [Ea _].
      destruct (ci_word w m Hw Hall Hm) as [Nm Wm].
      unfold at_boundary in He. rewrite (head_word_rev m b Nm Wm) in He.
      exists [], m, r. repeat split; auto.
      * unfold at_boundary in Hb. rewrite Ea in Hb.
        destruct m as [|z m]; [contradiction|]. simpl in *.
        apply andb_prop in Wm as [Wz _]. rewrite Wz in Hb.
        now destruct (head_is_word b).
      * now destruct (head_is_word r).
    + destruct (IH _ H) as [pre [m [post [-> [Hm [Hpre Hpost]]]]]].
      exists (x :: pre), m, post. repeat split; auto.
      simpl rev. now rewrite <- app_assoc.
Qed.

Lemma search_LIMIT_spec (s : pystr) :
  truthy (search LIMIT_RE s) = true <-> whole_word (py "LIMIT") s.
Proof.
  rewrite search_LIMIT. split.
  - intros H.
    destruct (hit_whole_word ignorecase (py "LIMIT") eq_refl) with (a := s) (b := @nil ascii)
      as [pre [m [post [E [Hm [Hpre Hpost]]]]]];
      [discriminate | reflexivity | exact H |].
    exists pre, m, post. rewrite app_nil_r in Hpre. auto.
  - apply whole_word_hit; [reflexivity | now left | discriminate | reflexivity].
Qed.

Lemma keyword_forbidden (kw s : pystr) :
  In kw KEYWORDS -> whole_word kw s -> any_pos forbidden_at [] s = true.
Proof.
  intros Hin. apply whole_word_hit.
  - reflexivity.
  - unfold TOKENS. apply in_or_app. now left.
  - intros ->. simpl in Hin. intuition discriminate.
  - assert (A : forallb (forallb is_word) KEYWORDS = true) by reflexivity.
    rewrite forallb_forall in A. now apply A.
Qed.

Lemma flanked_forbidden (t s : pystr) :
  In t [py ";"; py "$$"] -> flanked t s -> any_pos forbidden_at [] s = true.
Proof.
  intros Hin [pre [post [-> [Hpre Hpost]]]].
  apply any_pos_skip, any_pos_here. rewrite app_nil_r.
  unfold ends_with_word in Hpre. unfold forbidden_at, hit.
  apply andb_true_intro. split.
  - unfold at_boundary. rewrite Hpre.
    destruct Hin as [<-|[<-|[]]]; reflexivity.
  - apply existsb_exists. exists t. split.
    + unfold TOKENS. apply in_or_app. now right.
    + rewrite (word_end_ci ignorecase t t _ post eq_refl eq_refl).
      unfold at_boundary. rewrite Hpost.
      destruct Hin as [<-|[<-|[]]]; reflexivity.
Qed.

Lemma any_pos_count (h : pystr -> pystr -> bool) (a b : pystr) :
  any_pos h b a = true -> 1 <= count_pos h b a.
Proof.
  revert b. induction a as [|x t IH]; intros b; simpl.
  - destruct (h b []); simpl; [lia | discriminate].
  - destruct (h b (x :: t)); simpl; [lia | apply IH].
Qed.

Lemma forallb_same (A : Type) (p q : A -> bool) (l : list A) :
  (forall x, p x = q x) -> forallb p l = forallb q l.
Proof. intros H. induction l as [|x l IH]; simpl; [reflexivity | now rewrite H, IH]. Qed.

Lemma no_semicolon_clean (t : pystr) :
  Str.count ";" t = 0 -> Str.rstrip_chars (py ";") t = t.
Proof.
  intros H. apply rstrip_by_clean.
  transitivity (forallb (fun x => negb (Ascii.eqb x ";")) t); [|now apply count_zero].
  apply forallb_same. intros x.
  change (existsb (Ascii.eqb x) (py ";")) with (Ascii.eqb x ";" || false).
  now rewrite orb_false_r.
Qed.

(** With at most one semicolon in the string, [rstrip(";")] removes what
    removing one trailing semicolon removes. *)
Lemma rstrip_semicolon_once (t : pystr) :
  Str.count ";" t <= 1 -> Str.rstrip_chars (py ";") t = without_trailing ";" t.
Proof.
  intros H. unfold without_trailing.
  destruct (rev t) as [|x l] eqn:E.
  - apply (f_equal (@rev ascii)) in E. rewrite rev_involutive in E. now subst t.
  - assert (Et : t = rev l ++ [x]).
    { rewrite <- (rev_involutive t), E. reflexivity. }
    destruct (Ascii.eqb_spec x ";") as [->|Nx].
    + subst t. rewrite count_app in H. change (Str.count ";" [";"%char]) with 1 in H.
      unfold Str.rstrip_chars. rewrite rstrip_by_tail by reflexivity.
      apply no_semicolon_clean. lia.
    + subst t. unfold Str.rstrip_chars. rewrite <- (app_nil_r [x]).
      change (rev l ++ [x] ++ []) with (rev l ++ x :: []).
      rewrite rstrip_by_keep; [reflexivity|].
      change (existsb (Ascii.eqb x) (py ";")) with (Ascii.eqb x ";" || false).
      rewrite orb_false_r. now apply Ascii.eqb_neq.
Qed.

Lemma rstrip_count (s : pystr) : Str.count ";" (Str.rstrip s) <= Str.count ";" s.
Proof.
  destruct (rstrip_by_split is_space s) as [t [E _]]. unfold Str.rstrip.
  set (p := Str.rstrip_by is_space s) in *.
  assert (C : Str.count ";" s = Str.count ";" p + Str.count ";" t)
    by (rewrite <- count_app; now f_equal).
  lia.
Qed.

(** * The guard *)




(** C2, as the code has it.  A candidate that holds one of the eleven
    keywords as a whole word, in any case, is rejected as a forbidden
    keyword, and so is a candidate in which a semicolon or a double dollar
    stands directly between two word characters. *)
Theorem denylist_rejects (s : pystr) :
  (exists kw, In kw KEYWORDS /\ whole_word kw s)
  \/ (exists t, In t [py ";"; py "$$"] /\ flanked t s) ->
  enforce_read_only s = inl forbidden_keyword.
Proof.
  intros H. rewrite enforce_unfold.
  destruct H as [[kw [Hin W]]|[t [Hin W]]].
  - now rewrite (keyword_forbidden kw s Hin W).
  - now rewrite (flanked_forbidden t s Hin W).
Qed.

Lemma denylist_rejects_update :
  whole_word (py "UPDATE") (py "  UpDaTe users set age=1")
  /\ enforce_read_only (py "  UpDaTe users set age=1") = inl forbidden_keyword.
Proof.
  assert (W : whole_word (py "UPDATE") (py "  UpDaTe users set age=1")).
  { exists (py "  "), (py "UpDaTe"), (py " users set age=1"). repeat split; reflexivity. }
  split; [exact W|].
  apply denylist_rejects. left. exists (py "UPDATE"). split; [|exact W].
  simpl. auto.
Defined.

(** A candidate with a semicolon that the guard does not reject. *)
Lemma trailing_semicolon_accepted :
  contains (py ";") (py "SELECT 1;")
  /\ enforce_read_only (py "SELECT 1;") = inr (py "SELECT 1 LIMIT 100")
  /\ enforce_read_only (py "SELECT 1;") <> inl forbidden_keyword.
Proof.
  repeat split.
  - exists (py "SELECT 1"), []. reflexivity.
  - discriminate.
Qed.

(** C3: the guard accepts the two stacked statements, and appends the row
    cap to the second one. *)
Theorem stacked_statements_accepted :
  enforce_read_only (py "SELECT * FROM a; SELECT * FROM b")
  = inr (py "SELECT * FROM a; SELECT * FROM b LIMIT 100").
Proof. reflexivity. Qed.






(** C6.  An accepted candidate that holds a whole-word LIMIT, in any case,
    comes back unchanged.  The fifth end-to-end scenario,
    "SELECT name FROM t LIMIT 5", is the instance below. *)
Theorem limit_preserved (s y : pystr) :
  enforce_read_only s = inr y ->
  whole_word (py "LIMIT") s ->
  y = s.
Proof.
  intros H W. apply search_LIMIT_spec in W. rewrite search_LIMIT in W.
  destruct (enforce_inv s y H) as [_ [_ [_ [[_ E]|[L _]]]]]; [exact E | congruence].
Qed.

Lemma limit_preserved_scenario :
  whole_word (py "LIMIT") (py "SELECT name FROM t LIMIT 5")
  /\ enforce_read_only (py "SELECT name FROM t LIMIT 5") = inr (py "SELECT name FROM t LIMIT 5").
Proof.
  assert (W : whole_word (py "LIMIT") (py "SELECT name FROM t LIMIT 5")).
  { exists (py "SELECT name FROM t "), (py "LIMIT"), (py " 5"). repeat split; reflexivity. }
  split; [exact W|].
  destruct (enforce_read_only (py "SELECT name FROM t LIMIT 5")) as [e|y] eqn:E.
  - discriminate E.
  - f_equal. exact (limit_preserved _ y E W).
Defined.




(** C8.  The guard is idempotent on what it accepts: a string it returns is
    accepted again and comes back as it is. *)
Theorem enforce_read_only_idempotent (s y : pystr) :
  enforce_read_only s = inr y -> enforce_read_only y = inr y.
Proof.
  intros H. destruct (enforce_inv s y H) as [HF [HC [HS [[L ->]|[L ->]]]]].
  - exact H.
  - apply enforce_keep.
    + now apply capped_forbidden.
    + pose proof (capped_count s). lia.
    + now apply capped_begins.
    + apply count_pos_any. rewrite (capped_limit s L). lia.
Qed.

Lemma enforce_read_only_idempotent_ok :
  enforce_read_only (py " Select x from t ;") = inr (py " Select x from t  LIMIT 100")
  /\ enforce_read_only (py " Select x from t  LIMIT 100") = inr (py " Select x from t  LIMIT 100").
Proof.
  assert (E : enforce_read_only (py " Select x from t ;")
              = inr (py " Select x from t  LIMIT 100")) by reflexivity.
  exact (conj E (enforce_read_only_idempotent _ _ E)).
Defined.

(** * Extraction of the fenced block *)

Lemma eqb_lower_backtick (x : ascii) :
  Ascii.eqb (tolower x) "`" = Ascii.eqb x "`".
Proof. each_char x. Qed.

Lemma space_not_backtick (x : ascii) : is_space x = true -> Ascii.eqb x "`" = false.
Proof. each_char x. Qed.

Lemma starts_close (a : pystr) :
  starts_with true fence_close a = starts_with false fence_close a.
Proof.
  destruct a as [|x1 [|x2 [|x3 a]]]; simpl; try reflexivity;
    change (tolower "`") with "`"%char; now rewrite ?eqb_lower_backtick.
Qed.

Lemma find_cons_none (ci : bool) (w : pystr) (x : ascii) (t : pystr) :
  find ci w (x :: t) = None -> find ci w t = None.
Proof.
  simpl. destruct (starts_with ci w (x :: t)); [discriminate|].
  now destruct (find ci w t).
Qed.

Lemma find_skipn_none (ci : bool) (w : pystr) (n : nat) (a : pystr) :
  find ci w a = None -> find ci w (skipn n a) = None.
Proof.
  revert a. induction n as [|n IH]; intros a H; [exact H|].
  destruct a as [|x t]; [exact H|]. simpl. apply IH. now apply find_cons_none with x.
Qed.

Lemma find_close_space (x : ascii) (t : pystr) :
  is_space x = true ->
  find false fence_close (x :: t) = option_map S (find false fence_close t).
Proof.
  intros Hx. unfold find at 1. fold (find false fence_close t).
  unfold fence_close at 1. simpl starts_with. now rewrite (space_not_backtick x Hx).
Qed.

Lemma captured_app (u b a a' : pystr) (g g' : option pystr) :
  captured (Cursor b a g) (Cursor (rev u ++ b) a' g') = u.
Proof.
  unfold captured. simpl. rewrite length_app, Nat.add_sub.
  rewrite firstn_app, firstn_all, Nat.sub_diag. simpl.
  rewrite app_nil_r. apply rev_involutive.
Qed.

(** The lazy star stops in front of the first closing marker, and the group
    holds what was read up to there. *)
Lemma lazy_close (b0 a0 : pystr) (g0 g : option pystr) (a u : pystr) :
  match find false fence_close a with
  | Some j =>
      exists m,
        lazy (accepts fence_flags Dot)
          (fun c' => run fence_flags (lit fence_close) Some
                       (Cursor (before c') (after c')
                          (Some (captured (Cursor b0 a0 g0) c'))))
          (rev u ++ b0) a g = Some m
        /\ group1 m = Some (u ++ firstn j a)
  | None =>
      lazy (accepts fence_flags Dot)
        (fun c' => run fence_flags (lit fence_close) Some
                     (Cursor (before c') (after c')
                        (Some (captured (Cursor b0 a0 g0) c'))))
        (rev u ++ b0) a g = None
  end.
Proof.
  revert u. induction a as [|x t IH]; intros u.
  - reflexivity.
  - unfold find. fold (find false fence_close t).
    unfold lazy. fold lazy. cbv beta. simpl before. simpl after.
    rewrite run_lit, take_lit_starts, captured_app.
    change (IGNORECASE fence_flags) with true. rewrite starts_close.
    destruct (starts_with false fence_close (x :: t)).
    + eexists. split; [reflexivity|]. simpl. now rewrite app_nil_r.
    + change (accepts fence_flags Dot x) with true. cbv iota.
      specialize (IH (u ++ [x])). rewrite rev_app_distr in IH. simpl in IH.
      destruct (find false fence_close t) as [j|]; simpl.
      * destruct IH as [m [E G]]. exists m. split; [exact E|].
        now rewrite G, <- app_assoc.
      * exact IH.
Qed.

Lemma body_close (b a : pystr) (g : option pystr) :
  match find false fence_close a with
  | Some j =>
      exists m, run fence_flags fence_body Some (Cursor b a g) = Some m
                /\ group1 m = Some (firstn j a)
  | None => run fence_flags fence_body Some (Cursor b a g) = None
  end.
Proof. exact (lazy_close b a g g a []). Qed.

Lemma strip_space (x : ascii) (l : pystr) :
  is_space x = true -> Str.strip (x :: l) = Str.strip l.
Proof. intros Hx. unfold Str.strip, Str.lstrip_by. simpl. now rewrite Hx. Qed.

(** The greedy whitespace in front of the group does not change what the
    stripped group is. *)
Lemma greedy_close (r b : pystr) (g : option pystr) :
  match find false fence_close r with
  | Some j =>
      exists m gt,
        greedy is_space (run fence_flags fence_body Some) b r g = Some m
        /\ group1 m = Some gt /\ Str.strip gt = Str.strip (firstn j r)
  | None => greedy is_space (run fence_flags fence_body Some) b r g = None
  end.
Proof.
  revert b. induction r as [|x t IH]; intros b.
  - exact (body_close b [] g).
  - unfold greedy. fold greedy. destruct (is_space x) eqn:Hx.
    + rewrite (find_close_space x t Hx). specialize (IH (x :: b)).
      pose proof (body_close b (x :: t) g) as B.
      rewrite (find_close_space x t Hx) in B.
      destruct (find false fence_close t) as [j|]; simpl in *.
      * destruct IH as [m [gt [E [G S]]]]. exists m, gt. rewrite E.
        repeat split; auto. now rewrite strip_space.
      * now rewrite IH, B.
    + pose proof (body_close b (x :: t) g) as B.
      destruct (find false fence_close (x :: t)) as [j|]; [|exact B].
      destruct B as [m [E G]]. exists m, (firstn j (x :: t)). auto.
Qed.

Lemma run_fence (b a : pystr) :
  run fence_flags (expr FENCE_RE) Some (Cursor b a None) =
  if starts_with true fence_open a
  then greedy is_space (run fence_flags fence_body Some)
         (rev (firstn 6 a) ++ b) (skipn 6 a) None
  else None.
Proof.
  change (run fence_flags (expr FENCE_RE) Some (Cursor b a None))
    with (run fence_flags (lit fence_open)
            (fun c => greedy is_space (run fence_flags fence_body Some)
                        (before c) (after c) (group1 c))
            (Cursor b a None)).
  rewrite run_lit, take_lit_starts.
  change (IGNORECASE fence_flags) with true.
  now destruct (starts_with true fence_open a).
Qed.

(** No closing marker behind the sixth character: no opening marker of the
    subject is followed by one, and the pattern matches nowhere. *)
Lemma search_unclosed (a b : pystr) :
  find false fence_close (skipn 6 a) = None ->
  search_from fence_flags (expr FENCE_RE) b a = None.
Proof.
  revert b. induction a as [|x t IH]; intros b H.
  - reflexivity.
  - unfold search_from. fold search_from. rewrite run_fence.
    assert (G : (if starts_with true fence_open (x :: t)
                 then greedy is_space (run fence_flags fence_body Some)
                        (rev (firstn 6 (x :: t)) ++ b) (skipn 6 (x :: t)) None
                 else None) = None).
    { destruct (starts_with true fence_open (x :: t)); [|reflexivity].
      pose proof (greedy_close (skipn 6 (x :: t)) (rev (firstn 6 (x :: t)) ++ b) None) as B.
      now rewrite H in B. }
    rewrite G. apply IH.
    change (skipn 6 (x :: t)) with (skipn 5 t) in H.
    change 6 with (1 + 5). rewrite <- skipn_skipn.
    now apply find_skipn_none.
Qed.

Lemma search_fence (a b : pystr) :
  match fenced_block a with
  | Some interior =>
      exists m gt,
        search_from fence_flags (expr FENCE_RE) b a = Some m
        /\ group1 m = Some gt /\ Str.strip gt = Str.strip interior
  | None => search_from fence_flags (expr FENCE_RE) b a = None
  end.
Proof.
  unfold fenced_block. fold fence_open. fold fence_close.
  revert b. induction a as [|x t IH]; intros b.
  - reflexivity.
  - unfold find at 1. fold (find true fence_open t).
    unfold search_from. fold search_from. rewrite run_fence.
    destruct (starts_with true fence_open (x :: t)) eqn:S0.
    + change (skipn (0 + 6) (x :: t)) with (skipn 6 (x :: t)).
      pose proof (greedy_close (skipn 6 (x :: t)) (rev (firstn 6 (x :: t)) ++ b) None) as B.
      destruct (find false fence_close (skipn 6 (x :: t))) as [j|] eqn:F.
      * destruct B as [m [gt [E [G S]]]]. exists m, gt. now rewrite E.
      * rewrite B. apply search_unclosed.
        change (skipn 6 (x :: t)) with (skipn 5 t) in F.
        change 6 with (1 + 5). rewrite <- skipn_skipn.
        now apply find_skipn_none.
    + specialize (IH (x :: b)).
      destruct (find true fence_open t) as [i|]; simpl option_map; cbv iota beta.
      * change (skipn (S i + 6) (x :: t)) with (skipn (i + 6) t). exact IH.
      * exact IH.
Qed.

Lemma extract_sql_shape (text : pystr) :
  extract_sql text
  = inr (Str.strip match fenced_block text with
                   | Some interior => interior
                   | None => text
                   end).
Proof.
  unfold extract_sql, search. change (fl FENCE_RE) with fence_flags.
  pose proof (search_fence text []) as H.
  destruct (fenced_block text) as [interior|].
  - destruct H as [m [gt [-> [-> S]]]]. now rewrite S.
  - now rewrite H.
Qed.


Lemma find_app (ci : bool) (w pre a : pystr) :
  starts_with ci w a = true -> find ci w (pre ++ a) <> None.
Proof.
  intros H. induction pre as [|x pre IH]; simpl.
  - destruct a; simpl; now rewrite H.
  - destruct (starts_with ci w (x :: pre ++ a)); [discriminate|].
    now destruct (find ci w (pre ++ a)).
Qed.

Lemma find_split (w s : pystr) (i : nat) :
  find true w s = Some i ->
  exists pre m post, s = pre ++ m ++ post /\ ci_eq m w /\ length pre = i.
Proof.
  revert i. induction s as [|x t IH]; intros i; unfold find; [|fold (find true w t)].
  - destruct (starts_with true w []) eqn:S0; [|discriminate].
    intros E. injection E as <-.
    pose proof (take_lit_starts ignorecase w []) as T. simpl IGNORECASE in T.
    rewrite S0 in T. exists [], (firstn (length w) []), (skipn (length w) []).
    rewrite firstn_skipn. repeat split.
    exact (take_lit_ci_inv ignorecase w _ _ _ eq_refl T).
  - destruct (starts_with true w (x :: t)) eqn:S0.
    + intros E. injection E as <-.
      pose proof (take_lit_starts ignorecase w (x :: t)) as T. simpl IGNORECASE in T.
      rewrite S0 in T.
      exists [], (firstn (length w) (x :: t)), (skipn (length w) (x :: t)).
      rewrite firstn_skipn. repeat split.
      exact (take_lit_ci_inv ignorecase w _ _ _ eq_refl T).
    + destruct (find true w t) as [j|]; [|discriminate].
      intros E. injection E as <-.
      destruct (IH j eq_refl) as [pre [m [post [-> [Hm L]]]]].
      exists (x :: pre), m, post. simpl. auto.
Qed.

Lemma lstrip_word (pre m post : pystr) :
  head (map is_space m) = Some false ->
  exists pre', Str.lstrip_by is_space (pre ++ m ++ post) = pre' ++ m ++ post.
Proof.
  intros Hm. unfold Str.lstrip_by. induction pre as [|x pre IH].
  - exists []. destruct m as [|c m]; [discriminate|]. simpl in *.
    injection Hm as ->. reflexivity.
  - simpl. destruct (is_space x); [exact IH|]. now exists (x :: pre).
Qed.

(** Stripping a string does not remove a word without whitespace from it. *)
Lemma find_strip (w s : pystr) (i : nat) :
  w <> [] -> forallb (fun c => negb (is_space c)) w = true ->
  find true w s = Some i -> find true w (Str.strip s) <> None.
Proof.
  intros Nw Hw H. destruct (find_split w s i H) as [pre [m [post [-> [Hm _]]]]].
  assert (Wm : forallb (fun c => negb (is_space c)) m = true)
    by now rewrite (caseless_forall _ m w (caseless_not _ caseless_space) Hm).
  assert (Nm : m <> []).
  { intros ->. destruct w; [contradiction | discriminate]. }
  destruct (lstrip_word pre m post) as [pre' E].
  { destruct m as [|c m]; [contradiction|]. simpl in *.
    apply andb_prop in Wm as [Wc _]. apply negb_true_iff in Wc. now rewrite Wc. }
  unfold Str.strip. rewrite E, rstrip_by_word by assumption.
  apply find_app.
  pose proof (take_lit_ci ignorecase w m (Str.rstrip_by is_space post) eq_refl Hm) as T.
  rewrite take_lit_starts in T. simpl IGNORECASE in T.
  now destruct (starts_with true w (m ++ Str.rstrip_by is_space post)).
Qed.



(** ** The vocabulary, checked *)

Lemma find_close_ci (a : pystr) :
  find false fence_close a = find true fence_close a.
Proof.
  induction a as [|x t IH]; unfold find; [|fold (find false fence_close t);
    fold (find true fence_close t)]; rewrite starts_close; [reflexivity|].
  now rewrite IH.
Qed.

Lemma ci_eq_close (m : pystr) : ci_eq m fence_close -> m = fence_close.
Proof.
  unfold ci_eq. destruct m as [|x1 [|x2 [|x3 [|x4 m]]]]; try discriminate.
  simpl. intros E. injection E as E1 E2 E3.
  now rewrite (lower_backtick x1 E1), (lower_backtick x2 E2), (lower_backtick x3 E3).
Qed.

(** What [fenced_block] returns does lie between an opening marker and a
    closing marker of the response. *)
Lemma fenced_block_interior (text interior : pystr) :
  fenced_block text = Some interior ->
  exists pre op post,
    text = pre ++ op ++ interior ++ py "```" ++ post /\ ci_eq op (py "```sql").
Proof.
  unfold fenced_block. fold fence_open. fold fence_close.
  destruct (find true fence_open text) as [i|] eqn:Fo; [|discriminate].
  destruct (find false fence_close (skipn (i + 6) text)) as [j|] eqn:Fc; [|discriminate].
  intros E. injection E as <-.
  destruct (find_split _ _ _ Fo) as [pre [op [rest [-> [Hop Li]]]]].
  pose proof (ci_eq_length _ _ Hop) as Lo. change (length fence_open) with 6 in Lo.
  assert (R : skipn (i + 6) (pre ++ op ++ rest) = rest).
  { rewrite app_assoc, <- Li, <- Lo, <- length_app, skipn_app, skipn_all, Nat.sub_diag.
    reflexivity. }
  rewrite R in *. rewrite find_close_ci in Fc.
  destruct (find_split _ _ _ Fc) as [pre2 [m [post [-> [Hm Lj]]]]].
  rewrite (ci_eq_close m Hm). exists pre, op, post. split; [|exact Hop].
  now rewrite <- Lj, firstn_app, firstn_all, Nat.sub_diag, app_nil_r.
Qed.

(** ** The end-to-end scenarios of the specification, on the code *)

Example scenario_users :
  enforce_read_only (py "SELECT * FROM users") = inr (py "SELECT * FROM users LIMIT 100").
Proof. reflexivity. Qed.

Example scenario_drop :
  enforce_read_only (py "DROP TABLE users") = inl forbidden_keyword.
Proof. reflexivity. Qed.

Example scenario_update :
  enforce_read_only (py "update users set age=1") = inl forbidden_keyword.
Proof. reflexivity. Qed.

Example scenario_limit :
  enforce_read_only (py "SELECT name FROM t LIMIT 5") = inr (py "SELECT name FROM t LIMIT 5").
Proof. reflexivity. Qed.

Example three_statements :
  enforce_read_only (py "SELECT 1 ; SELECT 2 ; SELECT 3") = inl multiple_statements.
Proof. reflexivity. Qed.

Example semicolon_between_words :
  enforce_read_only (py "SELECT a;b") = inl forbidden_keyword.
Proof. reflexivity. Qed.

Example fenced_answer :
  extract_sql (py "Here you go: ```SQL  select 1  ``` and ```sql select 2```")
  = inr (py "select 1").
Proof. reflexivity. Qed.

(** * Further properties of the guard *)

Lemma hit_one (f : flags) (ws : list pystr) (b a : pystr) :
  hit f ws b a = true -> exists w, In w ws /\ hit f [w] b a = true.
Proof.
  unfold hit. intros H. apply andb_prop in H as [Hb He].
  apply existsb_exists in He as [w [Hin Hw]]. exists w. split; [exact Hin|].
  simpl. now rewrite Hb, Hw.
Qed.

Lemma any_pos_one (f : flags) (ws : list pystr) (a b : pystr) :
  any_pos (hit f ws) b a = true ->
  exists w, In w ws /\ any_pos (hit f [w]) b a = true.
Proof.
  revert b. induction a as [|x t IH]; intros b; cbn [any_pos]; intros H;
    apply orb_prop in H as [H|H]; try discriminate.
  - destruct (hit_one f ws b [] H) as [w [Hin Hw]]. exists w. split; [exact Hin|].
    cbn [any_pos]. now rewrite Hw.
  - destruct (hit_one f ws b (x :: t) H) as [w [Hin Hw]]. exists w. split; [exact Hin|].
    cbn [any_pos]. now rewrite Hw.
  - destruct (IH _ H) as [w [Hin Hw]]. exists w. split; [exact Hin|].
    cbn [any_pos]. rewrite Hw. apply orb_true_r.
Qed.

Lemma head_nonword_rev (m b : pystr) :
  m <> [] -> forallb (fun c => negb (is_word c)) m = true ->
  head_is_word (rev m ++ b) = false.
Proof.
  intros Hm Hw. rewrite <- forallb_rev in Hw.
  destruct (rev m) as [|z l] eqn:E.
  - apply (f_equal (@rev ascii)) in E. rewrite rev_involutive in E. contradiction.
  - simpl in *. apply andb_prop in Hw as [Hz _]. now apply negb_true_iff.
Qed.

(** A token without word characters and without letters matches between
    word boundaries only with a word character on each side. *)
Lemma hit_flanked (w : pystr) :
  w <> [] -> forallb (fun c => negb (is_word c)) w = true ->
  (forall m, ci_eq m w -> m = w) ->
  forall a b,
    any_pos (hit ignorecase [w]) b a = true ->
    exists pre post,
      a = pre ++ w ++ post
      /\ head_is_word (rev pre ++ b) = true /\ head_is_word post = true.
Proof.
  intros Hw Hall Hci.
  assert (Step : forall a b, hit ignorecase [w] b a = true ->
            exists post, a = w ++ post /\ head_is_word b = true
                         /\ head_is_word post = true).
  { intros a b H. unfold hit in H. simpl existsb in H. rewrite orb_false_r in H.
    apply andb_prop in H as [Hb He]. unfold word_end in He.
    destruct (take_lit ignorecase w a) as [[m r]|] eqn:E; [|discriminate].
    pose proof (Hci m (take_lit_ci_inv ignorecase w _ m r eq_refl E)) as ->.
    destruct (take_lit_app ignorecase w _ w r E) as [-> _].
    exists r. split; [reflexivity|].
    unfold at_boundary in *. rewrite (head_nonword_rev w b Hw Hall) in He.
    destruct w as [|c w']; [contradiction|]. simpl in *.
    apply andb_prop in Hall as [Hc _]. apply negb_true_iff in Hc. rewrite Hc in Hb.
    split; [now destruct (head_is_word b) | exact He]. }
  induction a as [|x t IH]; intros b H; cbn [any_pos] in H;
    apply orb_prop in H as [H|H]; try discriminate.
  - destruct (Step _ _ H) as [post [E [Hb Hp]]]. now exists [], post.
  - destruct (Step _ _ H) as [post [E [Hb Hp]]]. now exists [], post.
  - destruct (IH _ H) as [pre [post [-> [Hb Hp]]]].
    exists (x :: pre), post. repeat split; auto.
    simpl rev. now rewrite <- app_assoc.
Qed.

Lemma ci_eq_semicolon (m : pystr) : ci_eq m (py ";") -> m = py ";".
Proof.
  unfold ci_eq. destruct m as [|x [|x2 m]]; try discriminate.
  simpl. intros E. injection E as E. f_equal. revert E. each_char x.
Qed.

Lemma ci_eq_dollars (m : pystr) : ci_eq m (py "$$") -> m = py "$$".
Proof.
  unfold ci_eq. destruct m as [|x [|y [|z m]]]; try discriminate.
  simpl. intros E. injection E as Ex Ey.
  assert (L : forall c, tolower c = "$"%char -> c = "$"%char) by (intros c; each_char c).
  now rewrite (L x Ex), (L y Ey).
Qed.

(** The denylist pattern matches somewhere in [s] exactly when [s] holds a
    keyword as a whole word or a flanked punctuation token. *)
Lemma forbidden_spec (s : pystr) :
  any_pos forbidden_at [] s = true <-> denylisted s.
Proof.
  split.
  - intros H. destruct (any_pos_one _ _ _ _ H) as [w [Hin Hw]].
    unfold TOKENS in Hin. apply in_app_or in Hin as [Hin|Hin].
    + left. exists w. split; [exact Hin|].
      assert (A : forallb (fun k => negb (Nat.eqb (length k) 0) && forallb is_word k)
                    KEYWORDS = true) by reflexivity.
      rewrite forallb_forall in A. specialize (A w Hin).
      apply andb_prop in A as [A1 A2].
      destruct (hit_whole_word ignorecase w eq_refl) with (a := s) (b := @nil ascii)
        as [pre [m [post [E [Hm [Hpre Hpost]]]]]]; auto.
      { intros ->. discriminate A1. }
      exists pre, m, post. rewrite app_nil_r in Hpre. auto.
    + right. exists w. split; [exact Hin|].
      assert (F : exists pre post, s = pre ++ w ++ post
                    /\ head_is_word (rev pre ++ []) = true /\ head_is_word post = true).
      { destruct Hin as [<-|[<-|[]]].
        - apply hit_flanked; auto; [discriminate | exact ci_eq_semicolon].
        - apply hit_flanked; auto; [discriminate | exact ci_eq_dollars]. }
      destruct F as [pre [post [E [Hpre Hpost]]]]. exists pre, post.
      rewrite app_nil_r in Hpre. auto.
  - intros [[kw [Hin W]]|[t [Hin W]]].
    + exact (keyword_forbidden kw s Hin W).
    + exact (flanked_forbidden t s Hin W).
Qed.

Lemma select_spec (s : pystr) :
  begins_with_word (py "SELECT") s = true <-> select_shaped s.
Proof.
  split.
  - apply begins_inv.
  - intros [u [m [r [-> [Hu [Hm Hr]]]]]]. now apply begins_intro.
Qed.





Lemma dropwhile_first (p : ascii -> bool) (l l' : pystr) (c : ascii) :
  Str.dropwhile p l = c :: l' -> p c = false.
Proof.
  induction l as [|x l IH]; simpl; [discriminate|].
  destruct (p x) eqn:Px; [exact IH|]. intros E. injection E as <- _. exact Px.
Qed.

Lemma rstrip_by_last (p : ascii -> bool) (s t : pystr) (c : ascii) :
  Str.rstrip_by p s = t ++ [c] -> p c = false.
Proof.
  unfold Str.rstrip_by. intros E. apply (f_equal (@rev ascii)) in E.
  rewrite rev_involutive, rev_app_distr in E. simpl in E.
  exact (dropwhile_first p _ _ _ E).
Qed.

Lemma count_all (c : ascii) (l : pystr) :
  forallb (fun x => Ascii.eqb x c) l = true -> Str.count c l = length l.
Proof.
  unfold Str.count. induction l as [|x l IH]; simpl; [reflexivity|].
  intros H. apply andb_prop in H as [Hx Hl]. rewrite Ascii.eqb_sym, Hx. simpl.
  now rewrite IH.
Qed.



(** * Further properties of the extraction *)

Lemma strip_first (z t : pystr) (c : ascii) :
  Str.strip z = c :: t -> is_space c = false.
Proof.
  unfold Str.strip, Str.lstrip_by. intros E.
  destruct (rstrip_by_split is_space (Str.dropwhile is_space z)) as [tl [D _]].
  rewrite E in D. exact (dropwhile_first is_space z _ _ D).
Qed.

Lemma strip_last (z t : pystr) (c : ascii) :
  Str.strip z = t ++ [c] -> is_space c = false.
Proof. unfold Str.strip. apply rstrip_by_last. Qed.

Lemma dropwhile_fixed (p : ascii -> bool) (l : pystr) :
  (forall c t, l = c :: t -> p c = false) -> Str.dropwhile p l = l.
Proof.
  destruct l as [|c t]; [reflexivity|]. intros H. simpl.
  now rewrite (H c t eq_refl).
Qed.

Lemma rstrip_by_fixed (p : ascii -> bool) (l : pystr) :
  (forall c t, l = t ++ [c] -> p c = false) -> Str.rstrip_by p l = l.
Proof.
  intros H. unfold Str.rstrip_by. rewrite dropwhile_fixed; [apply rev_involutive|].
  intros c t E. apply (H c (rev t)).
  rewrite <- (rev_involutive l), E. reflexivity.
Qed.

Lemma strip_idem (z : pystr) : Str.strip (Str.strip z) = Str.strip z.
Proof.
  unfold Str.strip at 1. unfold Str.lstrip_by.
  rewrite dropwhile_fixed by (intros c t; apply strip_first).
  apply rstrip_by_fixed. intros c t. apply strip_last.
Qed.

(** X5.  What [extract_sql] returns is stripped: it neither begins nor ends
    with a whitespace character, whether it comes from a fenced block or is
    the whole response. *)
Theorem extract_sql_stripped (text y : pystr) :
  extract_sql text = inr y ->
  (forall c t, y = c :: t -> is_space c = false)
  /\ (forall c t, y = t ++ [c] -> is_space c = false).
Proof.
  rewrite extract_sql_shape. intros E. injection E as <-. split; intros c t.
  - apply strip_first.
  - apply strip_last.
Qed.

Lemma extract_sql_stripped_ok :
  extract_sql (py "  ```sql   select 1   ```  ") = inr (py "select 1")
  /\ (forall c t, py "select 1" = c :: t -> is_space c = false).
Proof.
  assert (E : extract_sql (py "  ```sql   select 1   ```  ") = inr (py "select 1"))
    by reflexivity.
  exact (conj E (proj1 (extract_sql_stripped _ _ E))).
Defined.

Lemma starts_with_app (ci : bool) (w a b : pystr) :
  starts_with ci w a = true -> starts_with ci w (a ++ b) = true.
Proof.
  revert a. induction w as [|c w IH]; intros a; [reflexivity|].
  destruct a as [|x a]; simpl; [discriminate|].
  intros H. apply andb_prop in H as [H1 H2]. now rewrite H1, (IH _ H2).
Qed.

Lemma find_cons (ci : bool) (w : pystr) (x : ascii) (t : pystr) :
  find ci w (x :: t)
  = if starts_with ci w (x :: t) then Some 0 else option_map S (find ci w t).
Proof. reflexivity. Qed.

Lemma find_none_prefix (ci : bool) (w r t : pystr) :
  find ci w (r ++ t) = None -> find ci w r = None.
Proof.
  induction r as [|x r IH]; intros H.
  - destruct (starts_with ci w []) eqn:S0.
    + apply (starts_with_app ci w [] t) in S0. simpl app in *.
      destruct t; simpl in H; rewrite S0 in H; discriminate.
    + simpl. now rewrite S0.
  - simpl app in H. rewrite find_cons in *.
    destruct (starts_with ci w (x :: r)) eqn:S0.
    + apply (starts_with_app ci w _ t) in S0. simpl app in S0.
      rewrite S0 in H. discriminate.
    + destruct (starts_with ci w (x :: r ++ t)); [discriminate|].
      destruct (find ci w (r ++ t)); [discriminate|]. now rewrite IH.
Qed.

Lemma find_none_dropwhile (ci : bool) (w : pystr) (p : ascii -> bool) (s : pystr) :
  find ci w s = None -> find ci w (Str.dropwhile p s) = None.
Proof.
  induction s as [|x s IH]; intros H; [exact H|].
  simpl. destruct (p x); [|exact H]. apply IH. now apply find_cons_none with x.
Qed.

Lemma find_none_strip (ci : bool) (w s : pystr) :
  find ci w s = None -> find ci w (Str.strip s) = None.
Proof.
  intros H. unfold Str.strip, Str.lstrip_by.
  destruct (rstrip_by_split is_space (Str.dropwhile is_space s)) as [t [E _]].
  apply (find_none_prefix ci w _ t). rewrite <- E. now apply find_none_dropwhile.
Qed.

(** In front of the first occurrence of a word there is no occurrence. *)
Lemma find_firstn (ci : bool) (w a : pystr) (j : nat) :
  w <> [] -> find ci w a = Some j -> find ci w (firstn j a) = None.
Proof.
  intros Hw. revert j. induction a as [|x t IH]; intros j.
  - destruct w; [contradiction|]. discriminate.
  - rewrite find_cons.
    destruct (starts_with ci w (x :: t)) eqn:S0.
    + intros E. injection E as <-. destruct w; [contradiction | reflexivity].
    + destruct (find ci w t) as [j'|] eqn:F; [|discriminate].
      intros E. injection E as <-. simpl firstn. rewrite find_cons.
      destruct (starts_with ci w (x :: firstn j' t)) eqn:S1.
      * apply (starts_with_app ci w _ (skipn j' t)) in S1. simpl app in S1.
        rewrite firstn_skipn in S1. congruence.
      * now rewrite (IH j' eq_refl).
Qed.

Lemma open_starts_close (op post : pystr) :
  ci_eq op fence_open -> starts_with false fence_close (op ++ post) = true.
Proof.
  unfold ci_eq. destruct op as [|x1 [|x2 [|x3 op]]]; try discriminate.
  simpl. intros E. injection E as E1 E2 E3 _.
  now rewrite (lower_backtick x1 E1), (lower_backtick x2 E2), (lower_backtick x3 E3).
Qed.

(** A string without a closing marker has no opening marker either. *)
Lemma no_close_no_open (y : pystr) :
  find false fence_close y = None -> find true fence_open y = None.
Proof.
  intros H. destruct (find true fence_open y) as [i|] eqn:F; [|reflexivity].
  destruct (find_split _ _ _ F) as [pre [op [post [-> [Hop _]]]]].
  exfalso. exact (find_app false fence_close pre _ (open_starts_close op post Hop) H).
Qed.

Lemma block_has_no_fence (text interior : pystr) :
  fenced_block text = Some interior ->
  find false fence_close (Str.strip interior) = None.
Proof.
  unfold fenced_block. fold fence_open. fold fence_close.
  destruct (find true fence_open text) as [i|]; [|discriminate].
  destruct (find false fence_close (skipn (i + 6) text)) as [j|] eqn:F; [|discriminate].
  intros E. injection E as <-. apply find_none_strip.
  apply find_firstn; [discriminate | exact F].
Qed.

(** X6.  The SQL that [extract_sql] takes out of a fenced block holds no
    fence marker: three backticks in a row do not occur in it. *)
Theorem extracted_block_has_no_fence (text y : pystr) :
  fenced_block text <> None ->
  extract_sql text = inr y ->
  find false (py "```") y = None.
Proof.
  rewrite extract_sql_shape. intros B E.
  destruct (fenced_block text) as [interior|] eqn:F; [|contradiction].
  injection E as <-. exact (block_has_no_fence text interior F).
Qed.

Lemma extracted_block_has_no_fence_ok :
  extract_sql (py "Sure: ```sql select `a` from t``` then ```sql x```")
  = inr (py "select `a` from t")
  /\ find false (py "```") (py "select `a` from t") = None.
Proof.
  assert (E : extract_sql (py "Sure: ```sql select `a` from t``` then ```sql x```")
              = inr (py "select `a` from t")) by reflexivity.
  assert (B : fenced_block (py "Sure: ```sql select `a` from t``` then ```sql x```") <> None)
    by (intros N; vm_compute in N; discriminate N).
  exact (conj E (extracted_block_has_no_fence _ _ B E)).
Defined.

Lemma find_min (w a : pystr) (i : nat) (pre op rest : pystr) :
  find true w a = Some i -> a = pre ++ op ++ rest -> ci_eq op w ->
  i <= length pre.
Proof.
  intros F E Hop. revert i pre F E.
  induction a as [|x t IH]; intros i pre; [unfold find | rewrite find_cons].
  - destruct (starts_with true w []); [|discriminate].
    intros F. injection F as <-. lia.
  - destruct (starts_with true w (x :: t)) eqn:S0.
    + intros F. injection F as <-. lia.
    + destruct (find true w t) as [j|] eqn:F; [|discriminate].
      intros G E. injection G as <-.
      destruct pre as [|x' pre]; simpl in E.
      * pose proof (take_lit_ci ignorecase w op rest eq_refl Hop) as T.
        rewrite take_lit_starts, <- E in T. simpl IGNORECASE in T.
        rewrite S0 in T. discriminate.
      * injection E as _ E. simpl. apply le_n_S. exact (IH j pre eq_refl E).
Qed.

(** A text has no fenced block exactly when none of its opening markers has
    a closing marker behind it. *)
Lemma no_block_iff (a : pystr) :
  fenced_block a = None <->
  (forall pre op rest,
      a = pre ++ op ++ rest -> ci_eq op fence_open ->
      find false fence_close rest = None).
Proof.
  unfold fenced_block. fold fence_open. fold fence_close. split.
  - intros H pre op rest E Hop.
    pose proof (ci_eq_length _ _ Hop) as Lo. change (length fence_open) with 6 in Lo.
    assert (R : skipn (length pre + 6) a = rest).
    { rewrite E, app_assoc, <- Lo, <- length_app, skipn_app, skipn_all, Nat.sub_diag.
      reflexivity. }
    destruct (find true fence_open a) as [i|] eqn:F.
    + pose proof (find_min _ _ _ _ _ _ F E Hop) as Li.
      destruct (find false fence_close (skipn (i + 6) a)) eqn:G; [discriminate|].
      rewrite <- R. replace (length pre + 6) with ((length pre - i) + (i + 6)) by lia.
      rewrite <- skipn_skipn. now apply find_skipn_none.
    + exfalso. apply (find_app true fence_open pre (op ++ rest)); [|now rewrite <- E].
      pose proof (take_lit_ci ignorecase fence_open op rest eq_refl Hop) as T.
      rewrite take_lit_starts in T. simpl IGNORECASE in T.
      now destruct (starts_with true fence_open (op ++ rest)).
  - intros H. destruct (find true fence_open a) as [i|] eqn:F; [|reflexivity].
    destruct (find_split _ _ _ F) as [pre [op [rest [E [Hop Li]]]]].
    pose proof (ci_eq_length _ _ Hop) as Lo. change (length fence_open) with 6 in Lo.
    assert (R : skipn (i + 6) a = rest).
    { rewrite E, app_assoc, <- Li, <- Lo, <- length_app, skipn_app, skipn_all, Nat.sub_diag.
      reflexivity. }
    now rewrite R, (H pre op rest E Hop).
Qed.

Lemma strip_inside (s : pystr) :
  exists u v, s = u ++ Str.strip s ++ v.
Proof.
  unfold Str.strip, Str.lstrip_by.
  destruct (dropwhile_split is_space s) as [u [E _]].
  destruct (rstrip_by_split is_space (Str.dropwhile is_space s)) as [v [D _]].
  exists u, v. now rewrite <- D.
Qed.

(** X7.  [extract_sql] is idempotent: applied to what it returned, it
    returns the same string. *)
Theorem extract_sql_idempotent (text y : pystr) :
  extract_sql text = inr y -> extract_sql y = inr y.
Proof.
  rewrite !extract_sql_shape. intros E. injection E as <-.
  assert (N : fenced_block
                (Str.strip match fenced_block text with
                           | Some interior => interior
                           | None => text
                           end) = None).
  { destruct (fenced_block text) as [interior|] eqn:F.
    - unfold fenced_block. fold fence_open.
      now rewrite (no_close_no_open _ (block_has_no_fence text interior F)).
    - apply no_block_iff. intros pre op rest E Hop.
      destruct (strip_inside text) as [u [v S]]. rewrite E in S.
      apply (find_none_prefix false fence_close rest v).
      apply (proj1 (no_block_iff text) F (u ++ pre) op (rest ++ v)); [|exact Hop].
      rewrite S, <- !app_assoc. reflexivity. }
  now rewrite N, strip_idem.
Qed.

Lemma extract_sql_idempotent_ok :
  extract_sql (py " ok ```SQL select 1 ``` ") = inr (py "select 1")
  /\ extract_sql (py "select 1") = inr (py "select 1").
Proof.
  assert (E : extract_sql (py " ok ```SQL select 1 ``` ") = inr (py "select 1"))
    by reflexivity.
  exact (conj E (extract_sql_idempotent _ _ E)).
Defined.

(** * From the reply of the service to the statement that is run *)

Lemma capped_head (u m r : pystr) :
  ci_eq m (py "SELECT") -> capped (u ++ m ++ r) = u ++ m ++ capped r.
Proof.
  intros Hm.
  assert (Nm : m <> []) by (intros ->; discriminate Hm).
  unfold capped, Str.rstrip_chars, Str.rstrip.
  rewrite rstrip_by_word, rstrip_by_word; auto.
  - now rewrite <- !app_assoc.
  - now rewrite (caseless_forall _ m (py "SELECT") (caseless_not _ caseless_semicolon) Hm).
  - now rewrite (caseless_forall _ m (py "SELECT") (caseless_not _ caseless_space) Hm).
Qed.

Lemma select_first_char (m : pystr) :
  ci_eq m (py "SELECT") -> exists c m', m = c :: m' /\ is_space c = false.
Proof.
  intros Hm. destruct m as [|c m']; [discriminate Hm|]. exists c, m'. split; [reflexivity|].
  unfold ci_eq in Hm. simpl in Hm. injection Hm as Hc _.
  now rewrite <- caseless_space, Hc.
Qed.

(** What the guard returns for a stripped candidate is stripped, and begins
    with SELECT at once. *)
Lemma guard_keeps_stripped (sql safe : pystr) :
  Str.strip sql = sql -> enforce_read_only sql = inr safe ->
  Str.strip safe = safe /\ starts_with true (py "SELECT") safe = true.
Proof.
  intros St H. destruct (enforce_inv sql safe H) as [_ [_ [HS HL]]].
  destruct (begins_inv _ _ HS) as [u [m [r [E [Hu [Hm Hr]]]]]].
  destruct (select_first_char m Hm) as [c [m' [Em Hc]]].
  assert (U : u = []).
  { destruct u as [|x u]; [reflexivity|]. simpl in Hu.
    apply andb_prop in Hu as [Hx _].
    rewrite <- St in E. simpl in E. apply strip_first in E. congruence. }
  subst u. simpl in E.
  assert (S1 : forall z, starts_with true (py "SELECT") (m ++ z) = true).
  { intros z. pose proof (take_lit_ci ignorecase (py "SELECT") m z eq_refl Hm) as T.
    rewrite take_lit_starts in T. simpl IGNORECASE in T.
    now destruct (starts_with true (py "SELECT") (m ++ z)). }
  destruct HL as [[_ ->]|[_ ->]].
  - split; [exact St | rewrite E; apply S1].
  - pose proof (capped_head [] m r Hm) as CH. simpl app in CH.
    rewrite E, CH. split; [|apply S1].
    unfold capped.
    set (p := Str.rstrip_chars (py ";") (Str.rstrip r)).
    unfold Str.strip, Str.lstrip_by. rewrite dropwhile_fixed.
    + apply rstrip_by_fixed. intros c0 t0 Eq.
      assert (Eq' : (m ++ p ++ py " LIMIT 10") ++ ["0"%char] = t0 ++ [c0])
        by (now rewrite <- Eq, <- !app_assoc).
      apply app_inj_tail in Eq' as [_ <-]. reflexivity.
    + intros c0 t0 Eq. rewrite Em in Eq. simpl in Eq. injection Eq as <- _. exact Hc.
Qed.





(** * The guard does not look at the case of letters *)

Lemma ci_cons_inv (x : ascii) (a l : pystr) :
  ci_eq (x :: a) l ->
  exists x' a', l = x' :: a' /\ tolower x = tolower x' /\ ci_eq a a'.
Proof.
  unfold ci_eq. destruct l as [|x' a']; [discriminate|]. simpl.
  intros E. injection E as Ex Ea. now exists x', a'.
Qed.

Lemma ci_nil_inv (l : pystr) : ci_eq [] l -> l = [].
Proof. unfold ci_eq. now destruct l. Qed.

Lemma ci_app (a a' b b' : pystr) :
  ci_eq a a' -> ci_eq b b' -> ci_eq (a ++ b) (a' ++ b').
Proof. unfold ci_eq. intros Ha Hb. now rewrite !map_app, Ha, Hb. Qed.

Lemma ci_rev (a a' : pystr) : ci_eq a a' -> ci_eq (rev a) (rev a').
Proof. unfold ci_eq. intros H. now rewrite !map_rev, H. Qed.

Lemma ci_head (p : ascii -> bool) (a a' : pystr) :
  caseless p -> ci_eq a a' -> head (map p a) = head (map p a').
Proof.
  intros Hp H. destruct a as [|x a].
  - now rewrite (ci_nil_inv _ H).
  - destruct (ci_cons_inv _ _ _ H) as [x' [a1 [-> [Ex _]]]]. simpl.
    now rewrite <- (Hp x), Ex, Hp.
Qed.

Lemma ci_head_word (a a' : pystr) :
  ci_eq a a' -> head_is_word a = head_is_word a'.
Proof.
  intros H. pose proof (ci_head is_word a a' caseless_word H) as E.
  destruct a, a'; simpl in *; congruence.
Qed.

Lemma ci_boundary (b b' a a' : pystr) :
  ci_eq b b' -> ci_eq a a' -> at_boundary b a = at_boundary b' a'.
Proof.
  intros Hb Ha. unfold at_boundary.
  now rewrite (ci_head_word b b' Hb), (ci_head_word a a' Ha).
Qed.

Lemma ci_take_lit (f : flags) (w a a' : pystr) :
  IGNORECASE f = true -> ci_eq a a' ->
  match take_lit f w a, take_lit f w a' with
  | Some (m, r), Some (m', r') => ci_eq m m' /\ ci_eq r r'
  | None, None => True
  | _, _ => False
  end.
Proof.
  intros Hf. revert a a'. induction w as [|c w IH]; intros a a' H; simpl.
  - split; [reflexivity | exact H].
  - destruct a as [|x a].
    + now rewrite (ci_nil_inv _ H).
    + destruct (ci_cons_inv _ _ _ H) as [x' [a1 [-> [Ex Ha]]]].
      unfold chr_eq. rewrite Hf, Ex.
      destruct (Ascii.eqb (tolower x') (tolower c)); [|exact I].
      specialize (IH a a1 Ha).
      destruct (take_lit f w a) as [[m r]|], (take_lit f w a1) as [[m' r']|];
        try contradiction; [|exact I].
      destruct IH as [Hm Hr]. split; [|exact Hr].
      unfold ci_eq in *. simpl. now rewrite Ex, Hm.
Qed.

Lemma ci_hit (ws : list pystr) (b b' a a' : pystr) :
  ci_eq b b' -> ci_eq a a' -> hit ignorecase ws b a = hit ignorecase ws b' a'.
Proof.
  intros Hb Ha. unfold hit. rewrite (ci_boundary b b' a a' Hb Ha). f_equal.
  apply existsb_same. intros w. unfold word_end.
  pose proof (ci_take_lit ignorecase w a a' eq_refl Ha) as T.
  destruct (take_lit ignorecase w a) as [[m r]|],
           (take_lit ignorecase w a') as [[m' r']|]; try contradiction; [|reflexivity].
  destruct T as [Hm Hr]. apply ci_boundary; [|exact Hr].
  apply ci_app; [now apply ci_rev | exact Hb].
Qed.

Lemma ci_any_pos (ws : list pystr) (a a' b b' : pystr) :
  ci_eq b b' -> ci_eq a a' ->
  any_pos (hit ignorecase ws) b a = any_pos (hit ignorecase ws) b' a'.
Proof.
  revert a' b b'. induction a as [|x a IH]; intros a' b b' Hb Ha.
  - rewrite (ci_nil_inv _ Ha). cbn [any_pos]. f_equal. now apply ci_hit.
  - destruct (ci_cons_inv _ _ _ Ha) as [x' [a1 [-> [Ex Ha1]]]]. cbn [any_pos].
    rewrite (ci_hit ws b b' (x :: a) (x' :: a1) Hb Ha). f_equal.
    apply IH; [|exact Ha1]. unfold ci_eq in *. simpl. now rewrite Ex, Hb.
Qed.

Lemma ci_count (a a' : pystr) : ci_eq a a' -> Str.count ";" a = Str.count ";" a'.
Proof.
  assert (L : forall x, Ascii.eqb ";" (tolower x) = Ascii.eqb ";" x)
    by (intros x; each_char x).
  unfold Str.count. revert a'. induction a as [|x a IH]; intros a' H.
  - now rewrite (ci_nil_inv _ H).
  - destruct (ci_cons_inv _ _ _ H) as [x' [a1 [-> [Ex Ha]]]]. cbn [filter].
    assert (Q : Ascii.eqb ";" x = Ascii.eqb ";" x') by (now rewrite <- (L x), Ex, L).
    rewrite Q. destruct (Ascii.eqb ";" x'); cbn [length]; now rewrite (IH a1 Ha).
Qed.

Lemma ci_dropwhile (p : ascii -> bool) (a a' : pystr) :
  caseless p -> ci_eq a a' -> ci_eq (Str.dropwhile p a) (Str.dropwhile p a').
Proof.
  intros Hp. revert a'. induction a as [|x a IH]; intros a' H.
  - rewrite (ci_nil_inv _ H). reflexivity.
  - destruct (ci_cons_inv _ _ _ H) as [x' [a1 [-> [Ex Ha]]]]. simpl.
    rewrite <- (Hp x), Ex, Hp. destruct (p x'); [now apply IH | exact H].
Qed.

Lemma ci_rstrip_by (p : ascii -> bool) (a a' : pystr) :
  caseless p -> ci_eq a a' -> ci_eq (Str.rstrip_by p a) (Str.rstrip_by p a').
Proof.
  intros Hp H. unfold Str.rstrip_by. now apply ci_rev, ci_dropwhile, ci_rev.
Qed.

Lemma ci_starts_with (w a a' : pystr) :
  ci_eq a a' -> starts_with true w a = starts_with true w a'.
Proof.
  revert a a'. induction w as [|c w IH]; intros a a' H; [reflexivity|].
  destruct a as [|x a].
  - now rewrite (ci_nil_inv _ H).
  - destruct (ci_cons_inv _ _ _ H) as [x' [a1 [-> [Ex Ha]]]]. simpl.
    now rewrite Ex, (IH a a1 Ha).
Qed.

Lemma ci_skipn (n : nat) (a a' : pystr) : ci_eq a a' -> ci_eq (skipn n a) (skipn n a').
Proof.
  revert a a'. induction n as [|n IH]; intros a a' H; [exact H|].
  destruct a as [|x a].
  - now rewrite (ci_nil_inv _ H).
  - destruct (ci_cons_inv _ _ _ H) as [x' [a1 [-> [_ Ha]]]]. simpl. now apply IH.
Qed.

Lemma ci_begins (w a a' : pystr) :
  ci_eq a a' -> begins_with_word w a = begins_with_word w a'.
Proof.
  intros H. unfold begins_with_word, Str.lstrip_by.
  pose proof (ci_dropwhile is_space a a' caseless_space H) as D.
  now rewrite (ci_starts_with w _ _ D), (ci_head_word _ _ (ci_skipn (length w) _ _ D)).
Qed.

Lemma ci_capped (a a' : pystr) : ci_eq a a' -> ci_eq (capped a) (capped a').
Proof.
  intros H. unfold capped, Str.rstrip_chars, Str.rstrip.
  apply ci_app; [|reflexivity].
  apply ci_rstrip_by; [exact caseless_semicolon|].
  now apply ci_rstrip_by; [exact caseless_space|].
Qed.

(** X10.  The guard does not look at the case of letters: two candidates that
    differ only in the case of their letters are both rejected, for the same
    cause, or both accepted, with results that again differ only in the case
    of their letters. *)
Theorem guard_ignores_case (s s' : pystr) :
  ci_eq s s' ->
  match enforce_read_only s, enforce_read_only s' with
  | inl e, inl e' => e = e'
  | inr y, inr y' => ci_eq y y'
  | _, _ => False
  end.
Proof.
  intros H. rewrite !enforce_unfold. unfold forbidden_at, limit_at.
  rewrite (ci_any_pos TOKENS s s' [] [] eq_refl H),
          (ci_any_pos [py "LIMIT"] s s' [] [] eq_refl H),
          (ci_count s s' H), (ci_begins (py "SELECT") s s' H).
  destruct (any_pos (hit ignorecase TOKENS) [] s'); [reflexivity|].
  destruct (1 <? Str.count ";" s'); [reflexivity|].
  destruct (begins_with_word (py "SELECT") s'); [|reflexivity].
  destruct (any_pos (hit ignorecase [py "LIMIT"]) [] s'); simpl;
    [exact H | now apply ci_capped].
Qed.

Lemma guard_ignores_case_ok :
  ci_eq (py "select Name from Users where id=1;") (py "SELECT NAME FROM USERS WHERE ID=1;")
  /\ enforce_read_only (py "select Name from Users where id=1;")
     = inr (py "select Name from Users where id=1 LIMIT 100")
  /\ enforce_read_only (py "SELECT NAME FROM USERS WHERE ID=1;")
     = inr (py "SELECT NAME FROM USERS WHERE ID=1 LIMIT 100")
  /\ ci_eq (py "select Name from Users where id=1 LIMIT 100")
           (py "SELECT NAME FROM USERS WHERE ID=1 LIMIT 100").
Proof.
  assert (C : ci_eq (py "select Name from Users where id=1;")
                    (py "SELECT NAME FROM USERS WHERE ID=1;")) by reflexivity.
  assert (E1 : enforce_read_only (py "select Name from Users where id=1;")
               = inr (py "select Name from Users where id=1 LIMIT 100")) by reflexivity.
  assert (E2 : enforce_read_only (py "SELECT NAME FROM USERS WHERE ID=1;")
               = inr (py "SELECT NAME FROM USERS WHERE ID=1 LIMIT 100")) by reflexivity.
  pose proof (guard_ignores_case _ _ C) as G. rewrite E1, E2 in G.
  exact (conj C (conj E1 (conj E2 G))).
Defined.
